(** * pj-raycast: the utilities of [src/utils.ts], the list ordering of
    the quick-switch command and the date formatting of the search command,
    embedded and verified.

    Conventions of the embedding.
    - JavaScript strings are [string]s (sequences of code units).
    - [homedir()], [Date.now()] and [new Date()] are read from explicit
      arguments or from the [World] the asynchronous code runs in.
    - [LocalStorage] is a finite map from keys to stored texts; the
      [JSON] codec is an interface with the laws the code relies on.
    - Asynchronous functions are state transformers over [World] that
      either resolve to a value or reject with a thrown value.
    - [Array.prototype.sort] is the stable sort the language prescribes
      for a consistent comparator. *)

From Stdlib Require Import Ascii DecimalZ DecimalPos.
From stdpp Require Import gmap strings list fin_maps pretty sorting.

Local Open Scope Z_scope.

(** ** JavaScript string primitives used by the sources *)

(** [s.startsWith(pat)] *)
Definition String_startsWith (s pat : string) : bool := String.prefix pat s.

(** [s.indexOf(pat)]: position of the first occurrence, if any. *)
Fixpoint String_indexOf (pat s : string) : option nat :=
  if String.prefix pat s then Some 0%nat
  else match s with
       | EmptyString => None
       | String _ s' => S <$> String_indexOf pat s'
       end.

(** [s.slice(n)] for [0 <= n]: the suffix from position [n]. *)
Fixpoint String_slice (n : nat) (s : string) : string :=
  match n, s with
  | O, _ => s
  | S n', String _ s' => String_slice n' s'
  | S _, EmptyString => EmptyString
  end.

(** [s.slice(0, n)] *)
Fixpoint String_take (n : nat) (s : string) : string :=
  match n, s with
  | S n', String c s' => String c (String_take n' s')
  | _, _ => EmptyString
  end.

(** [s.replace(pat, repl)] with a string pattern: only the first
    occurrence is replaced.  The only replacement text the sources pass is
    ["~"], which holds no [$] replacement pattern. *)
Definition String_replace (s pat repl : string) : string :=
  match String_indexOf pat s with
  | None => s
  | Some i =>
      String_take i s +:+ repl +:+ String_slice (i + String.length pat) s
  end.

(** ** Display formatting ([src/utils.ts]) *)

(** [formatDisplayPath], lines 29-35; [home] is the value of [homedir()]. *)
Definition formatDisplayPath (home path : string) : string :=
  if String_startsWith path home then String_replace path home "~"
  else path.

(** The function of the same name in [src/utils.test.ts], lines 34-43,
    which the test suite runs in place of the one above. *)
Definition test_formatDisplayPath (homeDir path : string) : string :=
  if decide (path = homeDir) then "~"
  else if String_startsWith path (homeDir +:+ "/")
       then "~" +:+ String_slice (String.length homeDir) path
       else path.

(** Values a property read can produce on [markerTypes]: the object is an
    ordinary object literal, so a key it does not own is looked up on
    [Object.prototype]. *)
Inductive JsValue :=
  | JsUndefined
  | JsString (s : string)
  | JsInherited (name : string).
    (* the member [name] of [Object.prototype]: a function object, or the
       prototype object itself for [__proto__] *)

#[global] Instance JsValue_eq_dec : EqDecision JsValue.
Proof. solve_decision. Defined.

(** Property names every ordinary object inherits (ECMAScript
    [Object.prototype], with the legacy accessors of Annex B). *)
Definition Object_prototype : list string :=
  [ "constructor"; "hasOwnProperty"; "isPrototypeOf";
    "propertyIsEnumerable"; "toLocaleString"; "toString"; "valueOf";
    "__proto__"; "__defineGetter__"; "__defineSetter__";
    "__lookupGetter__"; "__lookupSetter__" ].

(** [obj[key]] on an object literal with the given own properties. *)
Definition get_property (own : gmap string string) (key : string) : JsValue :=
  match own !! key with
  | Some v => JsString v
  | None => if decide (key ∈ Object_prototype) then JsInherited key
            else JsUndefined
  end.

(** Truthiness, as [||] and [?:] test it. *)
Definition truthy (v : JsValue) : bool :=
  match v with
  | JsUndefined => false
  | JsString s => negb (String.eqb s "")
  | JsInherited _ => true
  end.

(** The table of [formatProjectType], lines 39-54. *)
Definition markerTypes : gmap string string :=
  list_to_map
    [ (".git", "git"); ("package.json", "npm"); ("Cargo.toml", "cargo");
      ("go.mod", "go"); ("pyproject.toml", "python"); ("Makefile", "make");
      ("flake.nix", "nix"); ("composer.json", "php");
      ("build.gradle", "gradle"); ("pom.xml", "maven"); ("Gemfile", "ruby");
      ("mix.exs", "elixir"); ("deno.json", "deno");
      ("pubspec.yaml", "dart") ].

(** [formatProjectType], lines 38-56: [markerTypes[marker] || marker]. *)
Definition formatProjectType (marker : string) : JsValue :=
  let v := get_property markerTypes marker in
  if truthy v then v else JsString marker.

(** ** Relative dates (search command, lines 138-151) *)

Definition MS_PER_DAY : Z := 1000 * 60 * 60 * 24.

(** [formatDate]: [now] is the time value of [new Date()], [date] the time
    value of the argument ([None] for [undefined]).  Time values are
    integral milliseconds, so [Math.floor] of the quotient is [Z.div]. *)
Definition formatDate (now : Z) (date : option Z) : string :=
  match date with
  | None => ""
  | Some t =>
      let diffMs := now - t in
      let diffDays := diffMs `div` MS_PER_DAY in
      if diffDays =? 0 then "Today"
      else if diffDays =? 1 then "Yesterday"
      else if diffDays <? 7 then pretty diffDays +:+ " days ago"
      else if diffDays <? 30 then pretty (diffDays `div` 7) +:+ " weeks ago"
      else if diffDays <? 365
           then pretty (diffDays `div` 30) +:+ " months ago"
           else pretty (diffDays `div` 365) +:+ " years ago"
  end.

(** ** The host: storage, notifications, console, clock *)

(** A thrown value: an [Error] instance with its message, or anything else. *)
Inductive JsError :=
  | ErrorObject (message : string)
  | NonError.

Inductive ToastStyle := Success | Failure.

(** The options object passed to [showToast]. *)
Record ToastOptions := mkToast {
  style : ToastStyle;
  title : string;
  message : option string;
}.

Inductive StorageCall :=
  | GetItem (key : string)
  | SetItem (key value : string).

Definition call_key (c : StorageCall) : string :=
  match c with GetItem k => k | SetItem k _ => k end.

(** Everything the asynchronous utilities read or change.
    - [localStorage]: the texts stored under each key;
    - [setItem_fault]: [Some e] when the host rejects [LocalStorage.setItem]
      with [e]; [getItem] resolves for every key ([undefined] when the key
      is missing);
    - [clock]: the value of [Date.now()];
    - [toasts], [console], [storage_calls]: what the code has shown, logged
      and asked of the storage so far, oldest first. *)
Record World := mkWorld {
  localStorage : gmap string string;
  setItem_fault : option JsError;
  clock : Z;
  toasts : list ToastOptions;
  console : list (string * JsError);
  storage_calls : list StorageCall;
}.

Definition with_storage (st : gmap string string) (w : World) : World :=
  mkWorld st (setItem_fault w) (clock w) (toasts w) (console w)
          (storage_calls w).

Definition log_call (c : StorageCall) (w : World) : World :=
  mkWorld (localStorage w) (setItem_fault w) (clock w) (toasts w) (console w)
          (storage_calls w ++ [c]).

Definition log_toast (t : ToastOptions) (w : World) : World :=
  mkWorld (localStorage w) (setItem_fault w) (clock w) (toasts w ++ [t])
          (console w) (storage_calls w).

Definition log_console (msg : string) (e : JsError) (w : World) : World :=
  mkWorld (localStorage w) (setItem_fault w) (clock w) (toasts w)
          (console w ++ [(msg, e)]) (storage_calls w).

(** The clock moved to [t] between two calls. *)
Definition set_clock (t : Z) (w : World) : World :=
  mkWorld (localStorage w) (setItem_fault w) t (toasts w) (console w)
          (storage_calls w).

(** ** Asynchronous computations: a state and exception monad *)

Inductive Outcome (A : Type) :=
  | Resolved (a : A)
  | Rejected (e : JsError).
Arguments Resolved {A} a.
Arguments Rejected {A} e.

Definition Async (A : Type) : Type := World → Outcome A * World.

#[global] Instance Async_ret : MRet Async := λ A a w, (Resolved a, w).

#[global] Instance Async_bind : MBind Async := λ A B f m w,
  match m w with
  | (Resolved a, w') => f a w'
  | (Rejected e, w') => (Rejected e, w')
  end.

Definition throw {A} (e : JsError) : Async A := λ w, (Rejected e, w).

(** [try { body } catch (error) { handler }] *)
Definition try_catch {A} (body : Async A) (handler : JsError → Async A)
  : Async A := λ w,
  match body w with
  | (Resolved a, w') => (Resolved a, w')
  | (Rejected e, w') => handler e w'
  end.

Definition LocalStorage_getItem (key : string) : Async (option string) :=
  λ w, (Resolved (localStorage w !! key), log_call (GetItem key) w).

Definition LocalStorage_setItem (key value : string) : Async unit := λ w,
  let w' := log_call (SetItem key value) w in
  match setItem_fault w with
  | Some e => (Rejected e, w')
  | None => (Resolved tt, with_storage (<[key := value]> (localStorage w)) w')
  end.

Definition showToast (t : ToastOptions) : Async unit :=
  λ w, (Resolved tt, log_toast t w).

Definition console_error (msg : string) (e : JsError) : Async unit :=
  λ w, (Resolved tt, log_console msg e w).

Definition Date_now : Async Z := λ w, (Resolved (clock w), w).

(** ** The JSON codec, as far as the code relies on it *)

(** [JSON_parse s = Some a] stands for [JSON.parse(s)] returning the value
    [a] of the type the TypeScript signatures declare for the key, and
    [JSON_parse s = None] for [JSON.parse(s)] throwing.  A text that is
    JSON of another shape ([null], an object, a number where the array is
    declared) has no value of the declared type, and the calls the code
    makes on such a value are not followed here; [favorites_stored] and
    [recent_stored] below say that a key holds nothing or an array of the
    declared type. *)
Class JSON (A : Type) := {
  JSON_stringify : A → string;
  JSON_parse : string → option A;
  JSON_parse_stringify : ∀ a, JSON_parse (JSON_stringify a) = Some a;
  JSON_parse_empty : JSON_parse "" = None;
}.

Definition SyntaxError : JsError := ErrorObject "Unexpected end of JSON input".

Definition JSON_parse_async {A} `{JSON A} (s : string) : Async A :=
  match JSON_parse s with
  | Some a => mret a
  | None => throw SyntaxError
  end.

(** ** Array primitives *)

(** [l.indexOf(x)]: the first index holding [x], or [-1]. *)
Definition Array_indexOf {A} `{EqDecision A} (l : list A) (x : A) : Z :=
  match list_find (λ y, y = x) l with
  | Some (i, _) => Z.of_nat i
  | None => -1
  end.

(** The array left by [l.splice(index, 1)] for [0 <= index]. *)
Definition Array_splice1 {A} (index : Z) (l : list A) : list A :=
  delete (Z.to_nat index) l.

(** ** The favorites and recent-projects store ([src/utils.ts]) *)

Module STORAGE_KEYS.
Definition FAVORITES : string := "pj-favorites".
Definition RECENT_PROJECTS : string := "pj-recent-projects".
End STORAGE_KEYS.

(** [FavoriteProject] of [src/types.ts], the entry type of
    [StoredData["recentProjects"]]: [{ path: string; lastAccessed?:
    number }].  [addToRecentProjects] writes both fields; no code reads
    [lastAccessed]. *)
Record RecentProject := mkRecent {
  path : string;
  lastAccessed : option Z;
}.

#[global] Instance RecentProject_eq_dec : EqDecision RecentProject.
Proof. solve_decision. Defined.

(** The array [toggleFavorite] hands to [JSON.stringify]: the path pushed
    when [indexOf] answers [-1], its first occurrence spliced out
    otherwise. *)
Definition toggled (projectPath : string) (favorites : list string)
  : list string :=
  let index := Array_indexOf favorites projectPath in
  if index =? -1 then favorites ++ [projectPath]
  else Array_splice1 index favorites.

(** The array [addToRecentProjects] hands to [JSON.stringify]. *)
Definition recent_added (projectPath : string) (now : Z)
    (recent : list RecentProject) : list RecentProject :=
  take 10 (mkRecent projectPath (Some now)
           :: filter (λ p, path p ≠ projectPath) recent).

(** Number of entries of [l] equal to [x]. *)
Definition occurrences {A} `{EqDecision A} (x : A) (l : list A) : nat :=
  length (filter (λ y, y = x) l).

(** The toast of the [catch] branch of [toggleFavorite]. *)
Definition failure_toast (error : JsError) : ToastOptions :=
  mkToast Failure "Failed to update favorites"
    (Some match error with
          | ErrorObject m => m
          | NonError => "Unknown error"
          end).

(** An entry opened at a given time. *)
Definition entry_of (e : string * Z) : RecentProject :=
  mkRecent e.1 (Some e.2).

Section Store.
Context `{JSON_favorites : JSON (list string)}.
Context `{JSON_recent : JSON (list RecentProject)}.

(** [stored ? JSON.parse(stored) : []] *)
Definition parse_or_empty {A} `{JSON (list A)} (stored : option string)
  : Async (list A) :=
  match stored with
  | Some s => if String.eqb s "" then mret [] else JSON_parse_async s
  | None => mret []
  end.

(** [getFavorites], lines 65-72. *)
Definition getFavorites : Async (list string) :=
  try_catch
    (stored ← LocalStorage_getItem STORAGE_KEYS.FAVORITES;
     parse_or_empty stored)
    (λ _, mret []).

(** [toggleFavorite], lines 75-105. *)
Definition toggleFavorite (projectPath : string) : Async bool :=
  try_catch
    (favorites ← getFavorites;
     let index := Array_indexOf favorites projectPath in
     if index =? -1 then
       let favorites := favorites ++ [projectPath] in
       LocalStorage_setItem STORAGE_KEYS.FAVORITES (JSON_stringify favorites);;
       showToast (mkToast Success "Added to Favorites" None);;
       mret true
     else
       let favorites := Array_splice1 index favorites in
       LocalStorage_setItem STORAGE_KEYS.FAVORITES (JSON_stringify favorites);;
       showToast (mkToast Success "Removed from Favorites" None);;
       mret false)
    (λ error,
       showToast
         (mkToast Failure "Failed to update favorites"
            (Some match error with
                  | ErrorObject m => m
                  | NonError => "Unknown error"
                  end));;
       mret false).

(** [getRecentProjects], lines 108-115. *)
Definition getRecentProjects : Async (list RecentProject) :=
  try_catch
    (stored ← LocalStorage_getItem STORAGE_KEYS.RECENT_PROJECTS;
     parse_or_empty stored)
    (λ _, mret []).

(** [addToRecentProjects], lines 118-138. *)
Definition addToRecentProjects (projectPath : string) : Async unit :=
  try_catch
    (recent ← getRecentProjects;
     let filtered := filter (λ p, path p ≠ projectPath) recent in
     now ← Date_now;
     let filtered := mkRecent projectPath (Some now) :: filtered in
     let trimmed := take 10 filtered in
     LocalStorage_setItem STORAGE_KEYS.RECENT_PROJECTS (JSON_stringify trimmed))
    (λ error, console_error "Failed to update recent projects:" error).

(** One project opened at time [e.2]: the clock is read by the call. *)
Definition add_at (w : World) (e : string * Z) : World :=
  (addToRecentProjects e.1 (set_clock e.2 w)).2.

(** Projects opened one after the other, first of the list first. *)
Definition add_in_sequence (entries : list (string * Z)) (w : World)
  : World :=
  foldl add_at w entries.

(** What the two readers make of a storage state. *)
Definition decode {A} `{JSON (list A)} (stored : option string) : list A :=
  match stored with
  | Some s => if String.eqb s "" then [] else default [] (JSON_parse s)
  | None => []
  end.

Definition favorites_of (w : World) : list string :=
  decode (localStorage w !! STORAGE_KEYS.FAVORITES).

Definition recent_of (w : World) : list RecentProject :=
  decode (localStorage w !! STORAGE_KEYS.RECENT_PROJECTS).

(** The key is missing, or holds the empty text, or holds a text that
    parses to an array of the declared type, as every text the code
    writes does: the readers then return the stored array. *)
Definition holds_array {A} `{JSON (list A)} (stored : option string)
  : bool :=
  match stored with
  | Some s =>
      String.eqb s "" || bool_decide (is_Some (JSON_parse (A := list A) s))
  | None => true
  end.

Definition favorites_stored (w : World) : bool :=
  holds_array (A := string) (localStorage w !! STORAGE_KEYS.FAVORITES).

Definition recent_stored (w : World) : bool :=
  holds_array (A := RecentProject)
    (localStorage w !! STORAGE_KEYS.RECENT_PROJECTS).

(** The world after the read and the attempted write of a toggle. *)
Definition toggle_attempt (projectPath : string) (w : World) : World :=
  log_call
    (SetItem STORAGE_KEYS.FAVORITES
       (JSON_stringify (toggled projectPath (favorites_of w))))
    (log_call (GetItem STORAGE_KEYS.FAVORITES) w).

(** The world after the read and the attempted write of an addition. *)
Definition add_attempt (projectPath : string) (w : World) : World :=
  log_call
    (SetItem STORAGE_KEYS.RECENT_PROJECTS
       (JSON_stringify (recent_added projectPath (clock w) (recent_of w))))
    (log_call (GetItem STORAGE_KEYS.RECENT_PROJECTS) w).

(** Two toggles of [p] in succession from [w]: every path is a favorite
    after them exactly if it was one before; and if [p] was none, the
    first call answers [true] and makes it one, the second answers [false]
    and makes it none again. *)
Definition toggle_round_trip (p : string) (w : World) : Prop :=
  let w1 := (toggleFavorite p w).2 in
  let w2 := (toggleFavorite p w1).2 in
  (∀ q, q ∈ favorites_of w2 ↔ q ∈ favorites_of w)
  ∧ (p ∉ favorites_of w →
     (toggleFavorite p w).1 = Resolved true
     ∧ p ∈ favorites_of w1
     ∧ (toggleFavorite p w1).1 = Resolved false
     ∧ p ∉ favorites_of w2).

End Store.

(** ** The quick-switch ordering (quick-switch command, lines 35-62) *)

(** [Project] of [@joe-sh/pj], re-exported by [src/types.ts]: the record
    of the discovery service, with the fields the commands read, [path],
    [name], [marker] and the optional [icon]. *)
Module Project.
Record t := mk {
  path : string;
  name : string;
  marker : string;
  icon : option string;
}.
End Project.

(** [String.prototype.localeCompare] of the host, with what makes
    [(a, b) => a.localeCompare(b)] a consistent comparator. *)
Class Collator := {
  localeCompare : string → string → Z;
  localeCompare_antisym : ∀ a b,
    Z.sgn (localeCompare a b) = - Z.sgn (localeCompare b a);
  localeCompare_trans : ∀ a b c,
    localeCompare a b ≤ 0 → localeCompare b c ≤ 0 → localeCompare a c ≤ 0;
}.

(** Insertion of [x] in front of the first element it does not follow. *)
Fixpoint sort_insert {A} (cmp : A → A → Z) (x : A) (l : list A) : list A :=
  match l with
  | [] => [x]
  | y :: l' => if cmp x y <=? 0 then x :: l else y :: sort_insert cmp x l'
  end.

(** [[...l].sort(cmp)]: for a consistent comparator the result is the
    stable sort of [l] (ECMAScript 2019), computed here by insertion from
    the right. *)
Definition Array_sort {A} (cmp : A → A → Z) (l : list A) : list A :=
  foldr (sort_insert cmp) [] l.

(** [x] may stand before [y] under the comparator. *)
Definition precedes {A} (cmp : A → A → Z) (x y : A) : Prop := cmp x y ≤ 0.

Section QuickSwitch.
Context `{Collator}.

(** The comparator of lines 43-60. *)
Definition compareProjects (recentPathList : list string) (a b : Project.t)
  : Z :=
  let aRecentIndex := Array_indexOf recentPathList (Project.path a) in
  let bRecentIndex := Array_indexOf recentPathList (Project.path b) in
  if negb (aRecentIndex =? -1) && negb (bRecentIndex =? -1)
  then aRecentIndex - bRecentIndex
  else if negb (aRecentIndex =? -1) then -1
  else if negb (bRecentIndex =? -1) then 1
  else localeCompare (Project.name a) (Project.name b).

(** [sortedProjects], from the stored recent list and the discovered
    projects (lines 36 and 43). *)
Definition sortedProjects (recent : list RecentProject)
    (discoveredProjects : list Project.t) : list Project.t :=
  let recentPathList := path <$> recent in
  Array_sort (compareProjects recentPathList) discoveredProjects.

End QuickSwitch.

(** [recentPaths.includes(project.path)] *)
Definition isRecent (recentPathList : list string) (p : Project.t) : Prop :=
  Project.path p ∈ recentPathList.

#[global] Instance isRecent_dec recentPathList p :
  Decision (isRecent recentPathList p).
Proof. unfold isRecent. apply _. Defined.

(** Position of a project's path in the recent list, [-1] when absent. *)
Definition recentIndex (recentPathList : list string) (p : Project.t) : Z :=
  Array_indexOf recentPathList (Project.path p).

(** [a] stands before [b] by recency. *)
Definition by_recency (recentPathList : list string) (a b : Project.t)
  : Prop :=
  recentIndex recentPathList a ≤ recentIndex recentPathList b.

(** [a] stands before [b] by name. *)
Definition by_name `{Collator} (a b : Project.t) : Prop :=
  localeCompare (Project.name a) (Project.name b) ≤ 0.

(** ** A reference codec and a reference collation

    Textual JSON for the two stored shapes, and comparison by code units.
    They show that the interfaces above are inhabited and let the store be
    run on concrete texts. *)

Module RefJSON.

Definition dquote : Ascii.ascii := Ascii.ascii_of_nat 34.
Definition backslash : Ascii.ascii := Ascii.ascii_of_nat 92.

Definition needs_escape (c : Ascii.ascii) : bool :=
  bool_decide (c = dquote) || bool_decide (c = backslash).

Fixpoint escape (s : string) : string :=
  match s with
  | EmptyString => EmptyString
  | String c s' =>
      if needs_escape c then String backslash (String c (escape s'))
      else String c (escape s')
  end.

Definition write_string (s : string) : string :=
  String dquote (escape s +:+ String dquote EmptyString).

(** Reads the inside of a string literal up to its closing quote; returns
    the string read and the rest of the text. *)
Fixpoint read_string_body (s : string) : option (string * string) :=
  match s with
  | EmptyString => None
  | String c s' =>
      if bool_decide (c = dquote) then Some (EmptyString, s')
      else if bool_decide (c = backslash) then
        match s' with
        | String d s'' =>
            if needs_escape d then
              match read_string_body s'' with
              | Some (r, rest) => Some (String d r, rest)
              | None => None
              end
            else None
        | EmptyString => None
        end
      else
        match read_string_body s' with
        | Some (r, rest) => Some (String c r, rest)
        | None => None
        end
  end.

Definition read_string (s : string) : option (string * string) :=
  match s with
  | String c s' => if bool_decide (c = dquote) then read_string_body s' else None
  | EmptyString => None
  end.

Fixpoint write_uint (d : Decimal.uint) : string :=
  match d with
  | Decimal.Nil => ""
  | Decimal.D0 d => String "0"%char (write_uint d)
  | Decimal.D1 d => String "1"%char (write_uint d)
  | Decimal.D2 d => String "2"%char (write_uint d)
  | Decimal.D3 d => String "3"%char (write_uint d)
  | Decimal.D4 d => String "4"%char (write_uint d)
  | Decimal.D5 d => String "5"%char (write_uint d)
  | Decimal.D6 d => String "6"%char (write_uint d)
  | Decimal.D7 d => String "7"%char (write_uint d)
  | Decimal.D8 d => String "8"%char (write_uint d)
  | Decimal.D9 d => String "9"%char (write_uint d)
  end.

Definition digit (c : Ascii.ascii) : option (Decimal.uint → Decimal.uint) :=
  match c with
  | "0"%char => Some Decimal.D0 | "1"%char => Some Decimal.D1
  | "2"%char => Some Decimal.D2 | "3"%char => Some Decimal.D3
  | "4"%char => Some Decimal.D4 | "5"%char => Some Decimal.D5
  | "6"%char => Some Decimal.D6 | "7"%char => Some Decimal.D7
  | "8"%char => Some Decimal.D8 | "9"%char => Some Decimal.D9
  | _ => None
  end.

(** Reads the longest run of digits. *)
Fixpoint read_uint (s : string) : Decimal.uint * string :=
  match s with
  | EmptyString => (Decimal.Nil, EmptyString)
  | String c s' =>
      match digit c with
      | Some d => let '(u, rest) := read_uint s' in (d u, rest)
      | None => (Decimal.Nil, s)
      end
  end.

(** The text goes on with a digit. *)
Definition starts_with_digit (s : string) : bool :=
  match s with
  | String c _ => bool_decide (is_Some (digit c))
  | EmptyString => false
  end.

Definition write_Z (z : Z) : string :=
  match Z.to_int z with
  | Decimal.Pos d => write_uint d
  | Decimal.Neg d => String "-"%char (write_uint d)
  end.

Definition read_Z (s : string) : option (Z * string) :=
  match s with
  | String "-"%char s' =>
      match read_uint s' with
      | (Decimal.Nil, _) => None
      | (d, rest) => Some (Z.of_int (Decimal.Neg d), rest)
      end
  | _ =>
      match read_uint s with
      | (Decimal.Nil, _) => None
      | (d, rest) => Some (Z.of_int (Decimal.Pos d), rest)
      end
  end.

(** Consumes the literal [lit] at the head of [s]. *)
Definition expect (lit s : string) : option string :=
  if String.prefix lit s then Some (String_slice (String.length lit) s)
  else None.

Definition key_path : string := write_string "path" +:+ ":".
Definition key_lastAccessed : string := write_string "lastAccessed" +:+ ":".

(** A property whose value is [undefined] is left out. *)
Definition write_recent (r : RecentProject) : string :=
  "{" +:+ key_path +:+ write_string (path r)
  +:+ match lastAccessed r with
      | Some t => "," +:+ key_lastAccessed +:+ write_Z t
      | None => ""
      end
  +:+ "}".

Definition read_recent (s : string) : option (RecentProject * string) :=
  s1 ← expect ("{" +:+ key_path) s;
  '(p, s2) ← read_string s1;
  match expect "}" s2 with
  | Some s3 => Some (mkRecent p None, s3)
  | None =>
      s3 ← expect ("," +:+ key_lastAccessed) s2;
      '(t, s4) ← read_Z s3;
      s5 ← expect "}" s4;
      Some (mkRecent p (Some t), s5)
  end.

Section Arrays.
Context {A : Type} (write_item : A → string)
        (read_item : string → option (A * string)).

Fixpoint write_items (l : list A) : string :=
  match l with
  | [] => ""
  | [a] => write_item a
  | a :: l' => write_item a +:+ "," +:+ write_items l'
  end.

Definition write_array (l : list A) : string :=
  "[" +:+ write_items l +:+ "]".

Fixpoint read_items (fuel : nat) (s : string) : option (list A) :=
  match fuel with
  | O => None
  | S fuel' =>
      match read_item s with
      | Some (a, String ","%char rest) => (a ::.) <$> read_items fuel' rest
      | Some (a, String "]"%char EmptyString) => Some [a]
      | _ => None
      end
  end.

Definition read_array (s : string) : option (list A) :=
  match s with
  | String "["%char (String "]"%char EmptyString) => Some []
  | String "["%char s' => read_items (String.length s') s'
  | _ => None
  end.

End Arrays.

End RefJSON.

(** Comparison by code units, first difference first. *)
Fixpoint code_unit_compare (a b : string) : Z :=
  match a, b with
  | EmptyString, EmptyString => 0
  | EmptyString, String _ _ => -1
  | String _ _, EmptyString => 1
  | String x a', String y b' =>
      let d := Z.of_nat (nat_of_ascii x) - Z.of_nat (nat_of_ascii y) in
      if d =? 0 then code_unit_compare a' b' else d
  end.

(** ** Icons ([src/utils.ts], lines 6-26) *)

(** What [getProjectIcon] returns: the project's own icon string, or one of
    the two host icons. *)
Inductive IconValue :=
  | CustomIcon (icon : string)
  | Icon_Box
  | Icon_Folder.

(** The three answers of [getIconType] in [src/utils.test.ts]. *)
Inductive IconType := custom | box | folder.

Definition icon_type (v : IconValue) : IconType :=
  match v with
  | CustomIcon _ => custom
  | Icon_Box => box
  | Icon_Folder => folder
  end.

Section Icons.
(** [s.trim()] of the host. *)
Variable String_trim : string → string.

(** [icon && icon.trim()] as a condition: the icon is defined and neither
    it nor its trimmed form is the empty string. *)
Definition icon_given (icon : option string) : bool :=
  match icon with
  | Some icon =>
      negb (String.eqb icon "") && negb (String.eqb (String_trim icon) "")
  | None => false
  end.

(** [getProjectIcon], lines 6-26. *)
Definition getProjectIcon (project : Project.t) : IconValue :=
  if icon_given (Project.icon project)
  then CustomIcon (default "" (Project.icon project))
  else if String.eqb (Project.marker project) ".git" then Icon_Box
  else if String.eqb (Project.marker project) "package.json" then Icon_Box
  else if String.eqb (Project.marker project) "Cargo.toml" then Icon_Box
  else if String.eqb (Project.marker project) "go.mod" then Icon_Box
  else Icon_Folder.

(** [getIconType] of [src/utils.test.ts], lines 127-140. *)
Definition getIconType (marker : string) (icon : option string) : IconType :=
  if icon_given icon then custom
  else if bool_decide
            (marker ∈ [".git"; "package.json"; "Cargo.toml"; "go.mod"])
       then box
       else folder.

End Icons.

(** ** Opening a project and loading the quick-switch list
    (quick-switch command, lines 27-74 and 97-112) *)

(** The toast of the [catch] branches of the commands. *)
Definition error_toast (title : string) (error : JsError) : ToastOptions :=
  mkToast Failure title
    (Some match error with
          | ErrorObject m => m
          | NonError => "Unknown error"
          end).

(** A call of the host whose outcome is given: it resolves to the value or
    rejects with the thrown value. *)
Definition host_call {A} (outcome : Outcome A) : Async A :=
  λ w, (outcome, w).

(** *** Code of a view: asynchronous code that also sets React state *)

(** A computation over the state [S] of a view and the world; what it set
    before rejecting stays set. *)
Definition Command (S A : Type) : Type := S → World → Outcome A * S * World.

#[global] Instance Command_ret {S} : MRet (Command S) :=
  λ A a st w, (Resolved a, st, w).

#[global] Instance Command_bind {S} : MBind (Command S) := λ A B f m st w,
  match m st w with
  | (Resolved a, st', w') => f a st' w'
  | (Rejected e, st', w') => (Rejected e, st', w')
  end.

(** An asynchronous call made from the code of a view. *)
Definition await {S A} (m : Async A) : Command S A := λ st w,
  let '(r, w') := m w in (r, st, w').

(** A [useState] setter. *)
Definition set_state {S} (f : S → S) : Command S unit :=
  λ st w, (Resolved tt, f st, w).

(** [try { body } catch (error) { handler } finally { cleanup }] *)
Definition try_catch_finally {S A} (body : Command S A)
    (handler : JsError → Command S A) (cleanup : Command S unit)
  : Command S A := λ st w,
  let '(r, st1, w1) :=
    match body st w with
    | (Resolved a, st', w') => (Resolved a, st', w')
    | (Rejected e, st', w') => handler e st' w'
    end in
  match cleanup st1 w1 with
  | (Resolved _, st2, w2) => (r, st2, w2)
  | (Rejected e, st2, w2) => (Rejected e, st2, w2)
  end.

(** The state of the quick-switch view ([useState], lines 21-23). *)
Module QuickSwitch.
Record State := mk {
  projects : list Project.t;
  isLoading : bool;
  recentPaths : list string;
}.
Definition setProjects (v : list Project.t) : Command State unit :=
  set_state (λ st, mk v (isLoading st) (recentPaths st)).
Definition setIsLoading (v : bool) : Command State unit :=
  set_state (λ st, mk (projects st) v (recentPaths st)).
Definition setRecentPaths (v : list string) : Command State unit :=
  set_state (λ st, mk (projects st) (isLoading st) v).
End QuickSwitch.

Section QuickSwitchCommand.
Context `{Collator}.
Context `{JSON_recent : JSON (list RecentProject)}.

(** [openProject], lines 97-112: [opened] is the outcome of the host's
    [open(project.path, ...)]. *)
Definition openProject (opened : Outcome unit) (project : Project.t)
  : Async unit :=
  try_catch
    (host_call opened;;
     addToRecentProjects (Project.path project))
    (λ error, showToast (error_toast "Failed to open project" error)).

(** [loadProjects], lines 27-74: [binary] is the outcome of
    [getBinaryManager().getBinaryPath()], [discovered] that of
    [discover({ icons: true })]. *)
Definition loadProjects (binary : Outcome unit)
    (discovered : Outcome (list Project.t))
  : Command QuickSwitch.State unit :=
  try_catch_finally
    (QuickSwitch.setIsLoading true;;
     await (host_call binary);;
     recent ← await getRecentProjects;
     let recentPathList := path <$> recent in
     QuickSwitch.setRecentPaths recentPathList;;
     discoveredProjects ← await (host_call discovered);
     let sortedProjects :=
       Array_sort (compareProjects recentPathList) discoveredProjects in
     QuickSwitch.setProjects sortedProjects)
    (λ error,
       await (console_error "Failed to load projects:" error);;
       await (showToast (error_toast "Failed to load projects" error));;
       QuickSwitch.setProjects [])
    (QuickSwitch.setIsLoading false).

End QuickSwitchCommand.

(** The accessory of a recent project (lines 137-153): its rank in the
    recent list, counted from one; none for the other projects. *)
Definition recentTag (recentPaths : list string) (project : Project.t)
  : option string :=
  if bool_decide (Project.path project ∈ recentPaths)
  then Some ("Recent #" +:+ pretty (recentIndex recentPaths project + 1))
  else None.

(** ** The search command (lines 26-104) *)

Module ProjectWithStats.
Record t := mk {
  project : Project.t;
  lastModified : option Z;
  size : option Z;
}.
End ProjectWithStats.

(** Lines 57-68: [statSync path] is [Some (mtime, size)], or [None] when
    the call throws. *)
Definition addStats (statSync : string → option (Z * Z)) (p : Project.t)
  : ProjectWithStats.t :=
  match statSync (Project.path p) with
  | Some (mtime, sz) => ProjectWithStats.mk p (Some mtime) (Some sz)
  | None => ProjectWithStats.mk p None None
  end.

(** The comparator of lines 71-74. *)
Definition compareByDate (a b : ProjectWithStats.t) : Z :=
  match ProjectWithStats.lastModified a, ProjectWithStats.lastModified b with
  | Some ta, Some tb => tb - ta
  | _, _ => 0
  end.

(** The difference of the modification times, a missing one counted as
    zero: the comparator above wherever both times are given. *)
Definition compareByTime (a b : ProjectWithStats.t) : Z :=
  default 0 (ProjectWithStats.lastModified b)
  - default 0 (ProjectWithStats.lastModified a).

(** Both projects have a modification time and [a] is not older than
    [b]. *)
Definition newer_first (a b : ProjectWithStats.t) : Prop :=
  ∃ ta tb, ProjectWithStats.lastModified a = Some ta
           ∧ ProjectWithStats.lastModified b = Some tb ∧ tb ≤ ta.

(** [filteredProjects], lines 98-104. *)
Definition filteredProjects (projects : list ProjectWithStats.t)
    (selectedType : string) (favorites : list string)
  : list ProjectWithStats.t :=
  if String.eqb selectedType "all" then projects
  else if String.eqb selectedType "favorites" then
    filter (λ p, Project.path (ProjectWithStats.project p) ∈ favorites)
           projects
  else
    filter (λ p, formatProjectType
                   (Project.marker (ProjectWithStats.project p))
                 = JsString selectedType)
           projects.

(** [new Set()] filled by [add]: a value already present is not added
    again, the others keep their order of insertion. *)
Definition Set_add {A} `{EqDecision A} (acc : list A) (v : A) : list A :=
  if decide (v ∈ acc) then acc else acc ++ [v].

Section ProjectTypes.
(** [String(f)] for the inherited member named by the argument. *)
Variable inherited_toString : string → string.

Definition ToString (v : JsValue) : string :=
  match v with
  | JsUndefined => "undefined"
  | JsString s => s
  | JsInherited n => inherited_toString n
  end.

(** The comparison [sort()] uses without a comparator: [undefined] last,
    the others by the code units of their strings. *)
Definition SortCompare (x y : JsValue) : Z :=
  match x, y with
  | JsUndefined, JsUndefined => 0
  | JsUndefined, _ => 1
  | _, JsUndefined => -1
  | _, _ => Z.sgn (code_unit_compare (ToString x) (ToString y))
  end.

(** [projectTypes], lines 91-95. *)
Definition projectTypes (projects : list ProjectWithStats.t) : list JsValue :=
  let types :=
    foldl (λ types p,
             Set_add types
               (formatProjectType
                  (Project.marker (ProjectWithStats.project p))))
          [] projects in
  Array_sort SortCompare types.

End ProjectTypes.

(** ** Finding the configured applications (lines 107-130 of the search
    command, the same code in the two other commands) *)

Module Application.
Record t := mk {
  name : string;
  path : string;
  bundleId : option string;
}.
End Application.

(** [s.includes(pat)] *)
Definition String_includes (s pat : string) : bool :=
  bool_decide (is_Some (String_indexOf pat s)).

(** [l.find(f)] *)
Definition Array_find {A} (f : A → bool) (l : list A) : option A :=
  snd <$> list_find (λ x, f x = true) l.

Section FindApps.
(** [s.toLowerCase()] of the host. *)
Variable String_toLowerCase : string → string.

(** The predicate passed to [apps.find]. *)
Definition matchesName (wanted : string) (app : Application.t) : bool :=
  String.eqb (String_toLowerCase (Application.name app))
             (String_toLowerCase wanted)
  || String_includes (String_toLowerCase (Application.name app))
                     (String_toLowerCase wanted).

(** The name of the application, in lower case, contains the wanted name
    in lower case. *)
Definition name_contains (wanted : string) (app : Application.t) : bool :=
  String_includes (String_toLowerCase (Application.name app))
                  (String_toLowerCase wanted).

(** [preferences.editorApp || "Visual Studio Code"], then [apps.find]. *)
Definition findApp (preference fallback : string)
    (apps : list Application.t) : option Application.t :=
  let wanted := if String.eqb preference "" then fallback else preference in
  Array_find (matchesName wanted) apps.

Definition findEditor (preference : string) (apps : list Application.t)
  : option Application.t :=
  findApp preference "Visual Studio Code" apps.

Definition findTerminal (preference : string) (apps : list Application.t)
  : option Application.t :=
  findApp preference "Terminal" apps.

End FindApps.

(** ** The order of the actions ([ProjectActions] of the list and search
    commands) *)

Inductive ActionKind := openInFinder | openInEditor | openInTerminal | copyPath.

#[global] Instance ActionKind_eq_dec : EqDecision ActionKind.
Proof. solve_decision. Defined.

(** The [switch] on [preferences.defaultAction]. *)
Definition orderedActions (defaultAction : string) : list ActionKind :=
  if String.eqb defaultAction "finder"
  then [openInFinder; openInEditor; openInTerminal; copyPath]
  else if String.eqb defaultAction "editor"
  then [openInEditor; openInFinder; openInTerminal; copyPath]
  else if String.eqb defaultAction "terminal"
  then [openInTerminal; openInFinder; openInEditor; copyPath]
  else if String.eqb defaultAction "copy"
  then [copyPath; openInFinder; openInEditor; openInTerminal]
  else [openInFinder; openInEditor; openInTerminal; copyPath].

(** The action a value of the preference asks for. *)
Definition preferredAction (defaultAction : string) : ActionKind :=
  if String.eqb defaultAction "editor" then openInEditor
  else if String.eqb defaultAction "terminal" then openInTerminal
  else if String.eqb defaultAction "copy" then copyPath
  else openInFinder.

(** ** Reading the output of [pj] (list command, lines 115-140) *)

(** The object [parseOutput] returns; [projects] is [None] when the parsed
    object has no such property. *)
Module PJOutput.
Record t := mk { projects : option (list Project.t) }.
End PJOutput.

Section ParseOutput.
Variable String_trim : string → string.
(** [JSON.parse(stdout) as PJOutput]: [None] when it throws. *)
Variable JSON_parse_output : string → option PJOutput.t.

(** [parseOutput], lines 117-128. *)
Definition parseOutput (stdout : string) : Async PJOutput.t :=
  if String.eqb stdout "" || String.eqb (String_trim stdout) ""
  then mret (PJOutput.mk (Some []))
  else
    try_catch
      (match JSON_parse_output stdout with
       | Some parsed => mret parsed
       | None => throw SyntaxError
       end)
      (λ e,
         console_error "Failed to parse pj output:" e;;
         mret (PJOutput.mk (Some []))).

End ParseOutput.

(** [data?.projects || []], line 140. *)
Definition projects_of (data : option PJOutput.t) : list Project.t :=
  match data with
  | Some d => default [] (PJOutput.projects d)
  | None => []
  end.

(** ** Toggles in sequence *)

Section ToggleSequence.
Context `{JSON_favorites : JSON (list string)}.

(** The paths of the list toggled one after the other, first one first. *)
Definition toggle_in_sequence (paths : list string) (w : World) : World :=
  foldl (λ w p, (toggleFavorite p w).2) w paths.

End ToggleSequence.

(** ** Concrete worlds *)

(** A host that accepts writes, with nothing stored. *)
Definition fresh_world : World := mkWorld ∅ None 1762041600000 [] [] [].

(** The favorites key holds the path [a] twice. *)
Definition duplicate_world : World :=
  mkWorld
    {[ STORAGE_KEYS.FAVORITES :=
         RefJSON.write_array RefJSON.write_string ["a"; "a"] ]}
    None 1762041600000 [] [] [].

(** The host rejects writes; [a] is a stored favorite. *)
Definition failing_world : World :=
  mkWorld
    {[ STORAGE_KEYS.FAVORITES :=
         RefJSON.write_array RefJSON.write_string ["a"] ]}
    (Some (ErrorObject "quota exceeded")) 1762041600000 [] [] [].

(** The favorites [b] and [a] are stored. *)
Definition favorites_world : World :=
  mkWorld
    {[ STORAGE_KEYS.FAVORITES :=
         RefJSON.write_array RefJSON.write_string ["b"; "a"] ]}
    None 1762041600000 [] [] [].


(** Three recent projects are stored. *)
Definition recent_world : World :=
  mkWorld
    {[ STORAGE_KEYS.RECENT_PROJECTS :=
         RefJSON.write_array RefJSON.write_recent
           [mkRecent "/p/B" (Some 30); mkRecent "/p/A" (Some 20);
            mkRecent "/p/C" (Some 10)] ]}
    None 1762041600000 [] [] [].

(** Three discovered projects. *)
Definition project_A : Project.t := Project.mk "/p/A" "A" ".git" None.
Definition project_B : Project.t := Project.mk "/p/B" "B" "go.mod" None.
Definition project_C : Project.t := Project.mk "/p/C" "C" "Makefile" None.
Definition three_projects : list Project.t :=
  [project_A; project_B; project_C].

(** A project whose marker names a member of [Object.prototype]. *)
Definition project_D : Project.t := Project.mk "/p/D" "D" "constructor" None.

(** A [statSync] that knows the three projects, B modified last. *)
Definition three_stats (path : string) : option (Z * Z) :=
  if String.eqb path "/p/A" then Some (100, 4096)
  else if String.eqb path "/p/B" then Some (300, 4096)
  else if String.eqb path "/p/C" then Some (200, 4096)
  else None.

(** A recent list with a path, [/p/X], that is not discovered. *)
Definition recent_BXA : list RecentProject :=
  [mkRecent "/p/B" (Some 30); mkRecent "/p/X" (Some 25);
   mkRecent "/p/A" (Some 20)].

(** Eleven distinct paths with the times they are opened at. *)
Definition eleven_entries : list (string * Z) :=
  [ ("p01", 1); ("p02", 2); ("p03", 3); ("p04", 4); ("p05", 5); ("p06", 6);
    ("p07", 7); ("p08", 8); ("p09", 9); ("p10", 10); ("p11", 11) ].

(** * Properties *)

(** ** Path display *)

Lemma String_indexOf_unfold pat s :
  String_indexOf pat s =
    if String.prefix pat s then Some 0%nat
    else match s with
         | EmptyString => None
         | String _ s' => S <$> String_indexOf pat s'
         end.
Proof. destruct s; reflexivity. Qed.

Lemma String_indexOf_prefix pat s :
  String.prefix pat s = true → String_indexOf pat s = Some 0%nat.
Proof. intros Hp. rewrite String_indexOf_unfold, Hp. reflexivity. Qed.

Lemma String_replace_prefix s pat repl :
  String.prefix pat s = true →
  String_replace s pat repl = repl +:+ String_slice (String.length pat) s.
Proof.
  intros Hp. unfold String_replace.
  rewrite (String_indexOf_prefix _ _ Hp).
  destruct s; reflexivity.
Qed.

(** What the shipped function computes: a plain prefix test, then the
    prefix is cut off. *)
Lemma formatDisplayPath_unfold home path :
  formatDisplayPath home path =
    if String_startsWith path home
    then "~" +:+ String_slice (String.length home) path
    else path.
Proof.
  unfold formatDisplayPath.
  destruct (String_startsWith path home) eqn:Hp; [|reflexivity].
  apply String_replace_prefix, Hp.
Qed.

Lemma append_cons c a b : String c a +:+ b = String c (a +:+ b).
Proof. reflexivity. Qed.

Lemma append_nil b : "" +:+ b = b.
Proof. reflexivity. Qed.

Lemma prefix_refl s : String.prefix s s = true.
Proof.
  induction s as [|c s IH]; simpl; [reflexivity|].
  destruct (Ascii.ascii_dec c c); [exact IH|congruence].
Qed.

Lemma prefix_app_l a b s :
  String.prefix (a +:+ b) s = true → String.prefix a s = true.
Proof.
  revert s. induction a as [|c a IH]; intros s Hp.
  - destruct s; reflexivity.
  - destruct s as [|d s]; [discriminate|].
    rewrite append_cons in Hp. simpl in Hp |- *.
    destruct (Ascii.ascii_dec c d); [apply IH, Hp|discriminate].
Qed.

Lemma String_slice_all s : String_slice (String.length s) s = "".
Proof. induction s; simpl; auto. Qed.

Lemma String_slice_app a b : String_slice (String.length a) (a +:+ b) = b.
Proof. induction a; [reflexivity|]. rewrite append_cons. simpl. auto. Qed.

Lemma prefix_app a b : String.prefix a (a +:+ b) = true.
Proof.
  induction a as [|c a IH]; [destruct b; reflexivity|].
  rewrite append_cons. simpl.
  destruct (Ascii.ascii_dec c c); [exact IH|congruence].
Qed.

(** The home directory itself is shown as [~]. *)
Lemma formatDisplayPath_home home : formatDisplayPath home home = "~".
Proof.
  rewrite formatDisplayPath_unfold. unfold String_startsWith.
  rewrite prefix_refl, String_slice_all. reflexivity.
Qed.

(** A path under the home directory is shown with [~] in its place. *)
Lemma formatDisplayPath_inside home rest :
  formatDisplayPath home (home +:+ "/" +:+ rest) = "~/" +:+ rest.
Proof.
  rewrite formatDisplayPath_unfold. unfold String_startsWith.
  rewrite prefix_app, String_slice_app. reflexivity.
Qed.

(** A path that does not start with the home directory is unchanged. *)
Lemma formatDisplayPath_outside home path :
  String_startsWith path home = false → formatDisplayPath home path = path.
Proof. intros Hp. rewrite formatDisplayPath_unfold, Hp. reflexivity. Qed.

(** X2: the shipped function and the one the tests run agree except on
    the paths that extend the home directory inside a segment. *)
Lemma formatDisplayPath_agrees_with_test home path :
  (String_startsWith path home = true → path ≠ home →
   String_startsWith path (home +:+ "/") = true) →
  formatDisplayPath home path = test_formatDisplayPath home path.
Proof.
  intros Hseg. unfold test_formatDisplayPath.
  destruct (decide (path = home)) as [->|Hne].
  { apply formatDisplayPath_home. }
  rewrite formatDisplayPath_unfold.
  destruct (String_startsWith path home) eqn:Hp.
  - rewrite (Hseg eq_refl Hne). reflexivity.
  - destruct (String_startsWith path (home +:+ "/")) eqn:Hq; [|reflexivity].
    unfold String_startsWith in *.
    apply prefix_app_l in Hq. congruence.
Qed.

(** The cases of [src/utils.test.ts] for [formatDisplayPath], run on the
    shipped function: the first three give what the tests expect. *)
Example formatDisplayPath_test_cases :
  formatDisplayPath "/Users/testuser" "/Users/testuser/projects/myapp"
  = "~/projects/myapp"
  ∧ formatDisplayPath "/Users/testuser" "/var/www/myapp" = "/var/www/myapp"
  ∧ formatDisplayPath "/Users/testuser" "/Users/testuser" = "~"
  ∧ test_formatDisplayPath "/Users/testuser" "/Users/testuser2/projects"
    = "/Users/testuser2/projects".
Proof. repeat split; reflexivity. Qed.

(** C1 (code defect): the property asks that a path sharing the home
    directory only as a string prefix, such as [/Users/alice2/x] for the
    home [/Users/alice], be returned unchanged, as the function of the test
    suite does.  The shipped [formatDisplayPath] tests [startsWith(home)]
    alone and rewrites it to [~2/x]. *)
Theorem formatDisplayPath_partial_segment :
  formatDisplayPath "/Users/alice" "/Users/alice2/x" = "~2/x"
  ∧ test_formatDisplayPath "/Users/alice" "/Users/alice2/x"
    = "/Users/alice2/x"
  ∧ formatDisplayPath "/Users/testuser" "/Users/testuser2/projects"
    = "~2/projects".
Proof. repeat split; reflexivity. Qed.

(** ** Project types *)

Lemma formatProjectType_known :
  formatProjectType ".git" = JsString "git"
  ∧ formatProjectType "package.json" = JsString "npm"
  ∧ formatProjectType "Cargo.toml" = JsString "cargo"
  ∧ formatProjectType "go.mod" = JsString "go"
  ∧ formatProjectType "pyproject.toml" = JsString "python"
  ∧ formatProjectType "Makefile" = JsString "make"
  ∧ formatProjectType "flake.nix" = JsString "nix"
  ∧ formatProjectType "composer.json" = JsString "php"
  ∧ formatProjectType "build.gradle" = JsString "gradle"
  ∧ formatProjectType "pom.xml" = JsString "maven"
  ∧ formatProjectType "Gemfile" = JsString "ruby"
  ∧ formatProjectType "mix.exs" = JsString "elixir"
  ∧ formatProjectType "deno.json" = JsString "deno"
  ∧ formatProjectType "pubspec.yaml" = JsString "dart".
Proof. repeat split; vm_compute; reflexivity. Qed.

(** Markers outside the table that are no property of [Object.prototype]
    come back unchanged. *)
Lemma formatProjectType_unmapped marker :
  markerTypes !! marker = None → marker ∉ Object_prototype →
  formatProjectType marker = JsString marker.
Proof.
  intros Hown Hproto. unfold formatProjectType, get_property.
  rewrite Hown. rewrite decide_False by exact Hproto. reflexivity.
Qed.

(** Every inherited property name comes back as the inherited member. *)
Lemma formatProjectType_inherited marker :
  marker ∈ Object_prototype →
  formatProjectType marker = JsInherited marker.
Proof.
  intros Hin. unfold Object_prototype in Hin.
  repeat (apply elem_of_cons in Hin as [->|Hin];
          [vm_compute; reflexivity|]).
  by apply elem_of_nil in Hin.
Qed.

(** C8 (code defect): the property asks the identity on every string
    outside the fourteen markers.  For [constructor] (and the other names
    an object literal inherits) the lookup [markerTypes[marker]] finds the
    inherited member, which is truthy, and that member is returned in
    place of the marker string. *)
Theorem formatProjectType_constructor :
  markerTypes !! "constructor" = None
  ∧ formatProjectType "constructor" = JsInherited "constructor"
  ∧ formatProjectType "constructor" ≠ JsString "constructor"
  ∧ formatProjectType "unknown.txt" = JsString "unknown.txt".
Proof. repeat split; vm_compute; congruence. Qed.

(** ** Relative dates *)

Lemma MS_PER_DAY_pos : 0 < MS_PER_DAY.
Proof. reflexivity. Qed.

(** C7: for a modification time [t] not later than [now] and
    [d = floor((now - t) / one day)], [formatDate] gives Today for [d = 0],
    Yesterday for [d = 1], [d] days ago for [2 <= d <= 6], [floor(d/7)]
    weeks ago for [7 <= d <= 29], [floor(d/30)] months ago for
    [30 <= d <= 364] and [floor(d/365)] years ago from 365 on; these cases
    cover every such [t].  Three days back reads 3 days ago, no whole day
    back reads Today. *)
Theorem formatDate_relative (now t : Z) :
  t ≤ now →
  let d := (now - t) `div` MS_PER_DAY in
  0 ≤ d
  ∧ (d = 0 → formatDate now (Some t) = "Today")
  ∧ (d = 1 → formatDate now (Some t) = "Yesterday")
  ∧ (2 ≤ d ≤ 6 → formatDate now (Some t) = pretty d +:+ " days ago")
  ∧ (7 ≤ d ≤ 29 →
     formatDate now (Some t) = pretty (d `div` 7) +:+ " weeks ago")
  ∧ (30 ≤ d ≤ 364 →
     formatDate now (Some t) = pretty (d `div` 30) +:+ " months ago")
  ∧ (365 ≤ d →
     formatDate now (Some t) = pretty (d `div` 365) +:+ " years ago")
  ∧ formatDate now (Some (now - 3 * MS_PER_DAY)) = "3 days ago"
  ∧ formatDate now (Some now) = "Today".
Proof.
  intros Hle d.
  assert (Hd : 0 ≤ d) by (apply Z.div_pos; [lia|apply MS_PER_DAY_pos]).
  split; [exact Hd|].
  unfold formatDate. fold d.
  repeat split.
  - intros ->. reflexivity.
  - intros ->. reflexivity.
  - intros [H2 H6].
    destruct (Z.eqb_spec d 0); [lia|]. destruct (Z.eqb_spec d 1); [lia|].
    destruct (Z.ltb_spec d 7); [reflexivity|lia].
  - intros [H7 H29].
    destruct (Z.eqb_spec d 0); [lia|]. destruct (Z.eqb_spec d 1); [lia|].
    destruct (Z.ltb_spec d 7); [lia|].
    destruct (Z.ltb_spec d 30); [reflexivity|lia].
  - intros [H30 H364].
    destruct (Z.eqb_spec d 0); [lia|]. destruct (Z.eqb_spec d 1); [lia|].
    destruct (Z.ltb_spec d 7); [lia|]. destruct (Z.ltb_spec d 30); [lia|].
    destruct (Z.ltb_spec d 365); [reflexivity|lia].
  - intros H365.
    destruct (Z.eqb_spec d 0); [lia|]. destruct (Z.eqb_spec d 1); [lia|].
    destruct (Z.ltb_spec d 7); [lia|]. destruct (Z.ltb_spec d 30); [lia|].
    destruct (Z.ltb_spec d 365); [lia|reflexivity].
  - replace (now - (now - 3 * MS_PER_DAY)) with (3 * MS_PER_DAY) by lia.
    rewrite Z.div_mul by discriminate. reflexivity.
  - rewrite Z.sub_diag. reflexivity.
Qed.

(** Twelve days back: one week. *)
Lemma formatDate_relative_witness :
  1761000000000 ≤ 1762041600000
  ∧ formatDate 1762041600000 (Some 1761000000000) = "1 weeks ago".
Proof.
  assert (Hle : 1761000000000 ≤ 1762041600000) by lia.
  split; [exact Hle|].
  destruct (formatDate_relative _ _ Hle) as (_ & _ & _ & _ & Hweeks & _).
  rewrite Hweeks; [reflexivity|vm_compute; split; discriminate].
Defined.

(** ** Arrays *)

Section ArrayFacts.
Context {A : Type} `{EqDecision A}.
Implicit Types (l : list A) (x y : A).

Lemma Array_indexOf_cons l x y :
  Array_indexOf (y :: l) x =
    if decide (y = x) then 0 else
    if Array_indexOf l x =? -1 then -1 else Array_indexOf l x + 1.
Proof.
  unfold Array_indexOf. simpl.
  destruct (decide (y = x)); [reflexivity|].
  destruct (list_find (λ z, z = x) l) as [[i z]|]; simpl; [|reflexivity].
  destruct (Z.eqb_spec (Z.of_nat i) (-1)); lia.
Qed.

Lemma Array_indexOf_range l x :
  Array_indexOf l x = -1 ∨ 0 ≤ Array_indexOf l x < Z.of_nat (length l).
Proof.
  induction l as [|y l IH]; [left; reflexivity|].
  rewrite Array_indexOf_cons. simpl length.
  destruct (decide (y = x)); [right; lia|].
  destruct (Z.eqb_spec (Array_indexOf l x) (-1)); [left; reflexivity|].
  right. lia.
Qed.

(** [indexOf] answers [-1] exactly for the values the array does not hold. *)
Lemma Array_indexOf_absent l x : Array_indexOf l x = -1 ↔ x ∉ l.
Proof.
  induction l as [|y l IH].
  - split; [intros _; apply not_elem_of_nil|reflexivity].
  - rewrite Array_indexOf_cons, not_elem_of_cons.
    destruct (decide (y = x)) as [->|Hne].
    + split; [lia|intros [? _]; congruence].
    + destruct (Z.eqb_spec (Array_indexOf l x) (-1)) as [Heq|Hneq].
      * split; [intros _; split; [congruence|by apply IH]|reflexivity].
      * pose proof (Array_indexOf_range l x).
        split; [lia|intros [_ Hnin]; apply IH in Hnin; lia].
Qed.

(** A found index splits the array around the first occurrence. *)
Lemma Array_indexOf_present l x :
  Array_indexOf l x ≠ -1 →
  ∃ l1 l2, l = l1 ++ (x :: l2) ∧ (x ∉ l1)
           ∧ Array_indexOf l x = Z.of_nat (length l1)
           ∧ Array_splice1 (Array_indexOf l x) l = l1 ++ l2.
Proof.
  induction l as [|y l IH]; [intros Hi; by destruct Hi|].
  rewrite Array_indexOf_cons.
  destruct (decide (y = x)) as [->|Hne].
  - intros _. exists [], l.
    split; [reflexivity|]. split; [apply not_elem_of_nil|].
    split; reflexivity.
  - destruct (Z.eqb_spec (Array_indexOf l x) (-1)) as [Heq|Hneq];
      [intros Hi; by destruct Hi|intros _].
    destruct (IH Hneq) as (l1 & l2 & -> & Hnin & Hidx & Hsp).
    exists (y :: l1), l2.
    split; [reflexivity|]. split; [|split].
    + apply not_elem_of_cons. split; [congruence|exact Hnin].
    + rewrite Hidx. simpl length. lia.
    + unfold Array_splice1 in *. rewrite Hidx in *.
      replace (Z.to_nat (Z.of_nat (length l1) + 1)) with (S (length l1))
        by lia.
      rewrite Nat2Z.id in Hsp. simpl. f_equal. exact Hsp.
Qed.

Lemma Array_indexOf_snoc l x :
  x ∉ l → Array_indexOf (l ++ [x]) x = Z.of_nat (length l).
Proof.
  induction l as [|y l IH]; intros Hnin.
  - cbn [app]. rewrite Array_indexOf_cons, decide_True by done. reflexivity.
  - apply not_elem_of_cons in Hnin as [Hne Hnin].
    change ((y :: l) ++ [x]) with (y :: (l ++ [x])).
    rewrite Array_indexOf_cons, decide_False by congruence.
    rewrite (IH Hnin). simpl length.
    destruct (Z.eqb_spec (Z.of_nat (length l)) (-1)); lia.
Qed.

Lemma Array_splice1_snoc l x :
  Array_splice1 (Z.of_nat (length l)) (l ++ [x]) = l.
Proof.
  unfold Array_splice1. rewrite Nat2Z.id.
  induction l as [|y l IH]; [reflexivity|]. simpl. f_equal. exact IH.
Qed.

End ArrayFacts.

(** ** The store: what each call returns and leaves behind *)

Section StoreFacts.
Context `{JSON_favorites : JSON (list string)}.
Context `{JSON_recent : JSON (list RecentProject)}.

Lemma JSON_stringify_nonempty {A} `{JSON A} (a : A) : JSON_stringify a ≠ "".
Proof.
  intros Heq. pose proof (JSON_parse_stringify a) as Hrt.
  rewrite Heq, JSON_parse_empty in Hrt. discriminate.
Qed.

Lemma decode_stringify {A} `{JSON (list A)} (l : list A) :
  decode (Some (JSON_stringify l)) = l.
Proof.
  unfold decode.
  destruct (String.eqb_spec (JSON_stringify l) "") as [Heq|_].
  - by apply JSON_stringify_nonempty in Heq.
  - by rewrite JSON_parse_stringify.
Qed.

Lemma read_run {A} `{JSON (list A)} (key : string) (w : World) :
  try_catch (stored ← LocalStorage_getItem key; parse_or_empty stored)
            (λ _, mret []) w
  = (Resolved (decode (localStorage w !! key)), log_call (GetItem key) w).
Proof.
  unfold try_catch, mbind, Async_bind, LocalStorage_getItem, parse_or_empty,
    decode, JSON_parse_async, throw, mret, Async_ret.
  destruct (localStorage w !! key) as [s|]; [|reflexivity].
  destruct (String.eqb s ""); [reflexivity|].
  destruct (JSON_parse s); reflexivity.
Qed.

Lemma getFavorites_run (w : World) :
  getFavorites w
  = (Resolved (favorites_of w), log_call (GetItem STORAGE_KEYS.FAVORITES) w).
Proof. apply read_run. Qed.

Lemma getRecentProjects_run (w : World) :
  getRecentProjects w
  = (Resolved (recent_of w),
     log_call (GetItem STORAGE_KEYS.RECENT_PROJECTS) w).
Proof. apply read_run. Qed.

Lemma toggleFavorite_run (projectPath : string) (w : World) :
  toggleFavorite projectPath w =
    let favorites := favorites_of w in
    let added := Array_indexOf favorites projectPath =? -1 in
    let w' := toggle_attempt projectPath w in
    match setItem_fault w with
    | None =>
        (Resolved added,
         log_toast
           (mkToast Success
              (if added then "Added to Favorites"
               else "Removed from Favorites") None)
           (with_storage
              (<[STORAGE_KEYS.FAVORITES :=
                   JSON_stringify (toggled projectPath favorites)]>
                 (localStorage w)) w'))
    | Some e => (Resolved false, log_toast (failure_toast e) w')
    end.
Proof.
  unfold toggleFavorite, try_catch at 1, mbind, Async_bind.
  rewrite getFavorites_run.
  unfold toggle_attempt, toggled.
  destruct (Array_indexOf (favorites_of w) projectPath =? -1);
    unfold LocalStorage_setItem, showToast, mret, Async_ret; cbn;
    destruct (setItem_fault w); reflexivity.
Qed.

Lemma addToRecentProjects_run (projectPath : string) (w : World) :
  addToRecentProjects projectPath w =
    let w' := add_attempt projectPath w in
    match setItem_fault w with
    | None =>
        (Resolved tt,
         with_storage
           (<[STORAGE_KEYS.RECENT_PROJECTS :=
                JSON_stringify
                  (recent_added projectPath (clock w) (recent_of w))]>
              (localStorage w)) w')
    | Some e =>
        (Resolved tt,
         log_console "Failed to update recent projects:" e w')
    end.
Proof.
  unfold addToRecentProjects, try_catch at 1, mbind, Async_bind.
  rewrite getRecentProjects_run.
  unfold add_attempt, recent_added, Date_now, LocalStorage_setItem,
    console_error; cbn.
  destruct (setItem_fault w); reflexivity.
Qed.

End StoreFacts.

(** ** Toggling a path in an array *)

Lemma toggled_absent (p : string) (l : list string) :
  p ∉ l → toggled p l = l ++ [p].
Proof.
  intros Hnin. unfold toggled.
  apply Array_indexOf_absent in Hnin. by rewrite Hnin.
Qed.

Lemma toggled_present (p : string) (l : list string) :
  p ∈ l →
  ∃ l1 l2, l = l1 ++ (p :: l2) ∧ (p ∉ l1) ∧ toggled p l = l1 ++ l2.
Proof.
  intros Hin. unfold toggled.
  assert (Hidx : Array_indexOf l p ≠ -1).
  { intros Habs. by apply Array_indexOf_absent in Habs. }
  destruct (Array_indexOf_present l p Hidx) as (l1 & l2 & Hl & Hnin & _ & Hsp).
  exists l1, l2. split; [exact Hl|]. split; [exact Hnin|].
  destruct (Z.eqb_spec (Array_indexOf l p) (-1)); [contradiction|exact Hsp].
Qed.

Lemma toggled_other (p q : string) (l : list string) :
  q ≠ p → q ∈ toggled p l ↔ q ∈ l.
Proof.
  intros Hne. destruct (decide (p ∈ l)) as [Hin|Hnin].
  - destruct (toggled_present p l Hin) as (l1 & l2 & -> & _ & ->).
    rewrite !elem_of_app, elem_of_cons. naive_solver.
  - rewrite (toggled_absent p l Hnin), elem_of_app, list_elem_of_singleton.
    naive_solver.
Qed.

Lemma toggled_filter (p : string) (l : list string) :
  filter (λ q, q ≠ p) (toggled p l) = filter (λ q, q ≠ p) l.
Proof.
  destruct (decide (p ∈ l)) as [Hin|Hnin].
  - destruct (toggled_present p l Hin) as (l1 & l2 & -> & _ & ->).
    rewrite !filter_app, filter_cons_False; [reflexivity|].
    intros Hpp. by apply Hpp.
  - rewrite (toggled_absent p l Hnin), filter_app, filter_cons_False.
    + apply app_nil_r.
    + intros Hpp. by apply Hpp.
Qed.

(** Pushing an absent path and toggling again restores the array. *)
Lemma toggled_twice_absent (p : string) (l : list string) :
  p ∉ l → toggled p (toggled p l) = l.
Proof.
  intros Hnin. rewrite (toggled_absent p l Hnin). unfold toggled.
  rewrite (Array_indexOf_snoc l p Hnin).
  destruct (Z.eqb_spec (Z.of_nat (length l)) (-1)); [lia|].
  apply Array_splice1_snoc.
Qed.

Lemma occurrences_app {A} `{EqDecision A} (x : A) (l k : list A) :
  occurrences x (l ++ k) = (occurrences x l + occurrences x k)%nat.
Proof. unfold occurrences. by rewrite filter_app, length_app. Qed.

Lemma occurrences_zero {A} `{EqDecision A} (x : A) (l : list A) :
  occurrences x l = 0%nat ↔ x ∉ l.
Proof.
  unfold occurrences. induction l as [|y l IH].
  - split; [intros _; apply not_elem_of_nil|reflexivity].
  - rewrite not_elem_of_cons. destruct (decide (y = x)) as [->|Hne].
    + rewrite filter_cons_True by done. simpl. naive_solver.
    + rewrite filter_cons_False by done. rewrite IH. naive_solver.
Qed.

(** Splicing out the single occurrence of a path leaves none. *)
Lemma toggled_single (p : string) (l : list string) :
  p ∈ l → (occurrences p l ≤ 1)%nat → p ∉ toggled p l.
Proof.
  intros Hin Hocc.
  destruct (toggled_present p l Hin) as (l1 & l2 & -> & Hnin & ->).
  rewrite occurrences_app in Hocc. unfold occurrences at 2 in Hocc.
  rewrite filter_cons_True in Hocc by done. simpl in Hocc.
  fold (occurrences p l2) in Hocc.
  assert (Hz : occurrences p l2 = 0%nat) by lia.
  apply occurrences_zero in Hz.
  rewrite elem_of_app. naive_solver.
Qed.

(** Toggling never creates a second entry for a path. *)
Lemma toggled_NoDup (p : string) (l : list string) :
  NoDup l → NoDup (toggled p l).
Proof.
  intros Hnd. destruct (decide (p ∈ l)) as [Hin|Hnin].
  - destruct (toggled_present p l Hin) as (l1 & l2 & -> & _ & ->).
    apply NoDup_app in Hnd as (Hl1 & Hdisj & Hl2).
    apply NoDup_cons in Hl2 as [_ Hl2].
    apply NoDup_app. split; [exact Hl1|]. split; [|exact Hl2].
    intros x Hx1 Hx2. apply (Hdisj x Hx1). by apply elem_of_cons; right.
  - rewrite (toggled_absent p l Hnin). apply NoDup_app.
    split; [exact Hnd|]. split; [|apply NoDup_singleton].
    intros x Hx1 Hx2. apply list_elem_of_singleton in Hx2. congruence.
Qed.

Lemma NoDup_occurrences {A} `{EqDecision A} (x : A) (l : list A) :
  NoDup l → (occurrences x l ≤ 1)%nat.
Proof.
  induction 1 as [|y l Hnin Hnd IH]; [unfold occurrences; simpl; lia|].
  unfold occurrences. destruct (decide (y = x)) as [->|Hne].
  - rewrite filter_cons_True by done. simpl.
    apply occurrences_zero in Hnin. unfold occurrences in Hnin. lia.
  - rewrite filter_cons_False by done. exact IH.
Qed.

(** ** The store: toggling, failures, frame *)

Section StoreProperties.
Context `{JSON_favorites : JSON (list string)}.
Context `{JSON_recent : JSON (list RecentProject)}.

Lemma favorites_of_written (l : list string) (w w' : World) :
  favorites_of
    (with_storage
       (<[STORAGE_KEYS.FAVORITES := JSON_stringify l]> (localStorage w)) w')
  = l.
Proof.
  unfold favorites_of. cbn. rewrite lookup_insert_eq. apply decode_stringify.
Qed.

Lemma recent_of_written (l : list RecentProject) (w w' : World) :
  recent_of
    (with_storage
       (<[STORAGE_KEYS.RECENT_PROJECTS := JSON_stringify l]>
          (localStorage w)) w')
  = l.
Proof.
  unfold recent_of. cbn. rewrite lookup_insert_eq. apply decode_stringify.
Qed.

(** A toggle whose write is accepted: the answer tells whether the path
    was pushed, the stored array is the toggled one, and the host goes on
    accepting writes. *)
Lemma toggleFavorite_success (p : string) (w : World) :
  setItem_fault w = None →
  (toggleFavorite p w).1
    = Resolved (bool_decide (p ∉ favorites_of w))
  ∧ favorites_of (toggleFavorite p w).2 = toggled p (favorites_of w)
  ∧ setItem_fault (toggleFavorite p w).2 = None.
Proof.
  intros Hok. rewrite toggleFavorite_run. cbv zeta. rewrite Hok. cbn [fst snd].
  split; [|split].
  - f_equal. destruct (Z.eqb_spec (Array_indexOf (favorites_of w) p) (-1))
      as [Heq|Hne].
    + apply Array_indexOf_absent in Heq. by rewrite bool_decide_eq_true_2.
    + rewrite bool_decide_eq_false_2; [reflexivity|].
      intros Hnin. by apply Array_indexOf_absent in Hnin.
  - unfold log_toast, favorites_of. cbn. rewrite lookup_insert_eq.
    apply decode_stringify.
  - exact Hok.
Qed.

(** Two toggles of a path that is stored at most once. *)
Lemma toggle_round_trip_single (p : string) (w : World) :
  setItem_fault w = None →
  (occurrences p (favorites_of w) ≤ 1)%nat →
  toggle_round_trip p w.
Proof.
  intros Hok Hocc. unfold toggle_round_trip. cbv zeta.
  destruct (toggleFavorite_success p w Hok) as (Hr1 & Hf1 & Hok1).
  destruct (toggleFavorite_success p _ Hok1) as (Hr2 & Hf2 & _).
  rewrite Hr1, Hr2, Hf2, Hf1. split.
  - intros q. destruct (decide (q = p)) as [->|Hne].
    + destruct (decide (p ∈ favorites_of w)) as [Hin|Hnin].
      * pose proof (toggled_single p _ Hin Hocc) as Hout.
        rewrite (toggled_absent p _ Hout), elem_of_app,
          list_elem_of_singleton. naive_solver.
      * by rewrite (toggled_twice_absent p _ Hnin).
    + by rewrite !toggled_other.
  - intros Hnin. rewrite (toggled_twice_absent p _ Hnin).
    assert (Hin1 : p ∈ toggled p (favorites_of w)).
    { rewrite (toggled_absent p _ Hnin), elem_of_app,
        list_elem_of_singleton. by right. }
    split; [by rewrite bool_decide_eq_true_2|].
    split; [exact Hin1|].
    split; [|exact Hnin].
    rewrite bool_decide_eq_false_2; [reflexivity|]. by intros Hn.
Qed.

(** From an array without repetition, accepted toggles lead only to
    arrays without repetition. *)
Lemma toggleFavorite_NoDup (p : string) (w : World) :
  setItem_fault w = None → NoDup (favorites_of w) →
  NoDup (favorites_of (toggleFavorite p w).2).
Proof.
  intros Hok Hnd. destruct (toggleFavorite_success p w Hok) as (_ & -> & _).
  by apply toggled_NoDup.
Qed.

Lemma holds_array_stringify {A} `{JSON (list A)} (l : list A) :
  holds_array (Some (JSON_stringify l)) = true.
Proof.
  unfold holds_array. rewrite JSON_parse_stringify.
  rewrite bool_decide_eq_true_2 by (by eexists). apply orb_true_r.
Qed.

(** An accepted toggle leaves an array under the favorites key. *)
Lemma toggleFavorite_stored (p : string) (w : World) :
  setItem_fault w = None → favorites_stored (toggleFavorite p w).2 = true.
Proof.
  intros Hok. unfold favorites_stored.
  rewrite toggleFavorite_run. cbv zeta. rewrite Hok.
  destruct (_ =? _); cbn; rewrite lookup_insert_eq;
    apply holds_array_stringify.
Qed.

(** C2: on every favorites state, that is, when the favorites key is
    missing or holds an array of paths without repetition, and with the
    writes accepted, toggling [p] twice gives every path its original
    membership back; if [p] was absent, the first call answers [true] and
    stores [p], the second answers [false] and [p] is no longer stored.
    A toggle leaves a favorites state again, so these are the states the
    code reaches from an empty store. *)
Theorem toggleFavorite_twice (p : string) (w : World) :
  setItem_fault w = None →
  favorites_stored w = true →
  NoDup (favorites_of w) →
  toggle_round_trip p w
  ∧ favorites_stored (toggleFavorite p w).2 = true
  ∧ NoDup (favorites_of (toggleFavorite p w).2).
Proof.
  intros Hok _ Hnd.
  split; [|split].
  - apply toggle_round_trip_single; [exact Hok|].
    by apply NoDup_occurrences.
  - by apply toggleFavorite_stored.
  - by apply toggleFavorite_NoDup.
Qed.

(** C5: when the host rejects the write with [e], [toggleFavorite] shows
    the failure toast and answers [false] whichever way the toggle went
    (the rejected write carries the toggled array), and leaves the storage
    as it was; [addToRecentProjects] resolves, shows no toast, leaves the
    storage as it was and only logs [e] on the console. *)
Theorem write_failure_handling (p : string) (w : World) (e : JsError) :
  setItem_fault w = Some e →
  ((toggleFavorite p w).1 = Resolved false
   ∧ toasts (toggleFavorite p w).2 = toasts w ++ [failure_toast e]
   ∧ style (failure_toast e) = Failure
   ∧ localStorage (toggleFavorite p w).2 = localStorage w
   ∧ storage_calls (toggleFavorite p w).2
     = storage_calls w
       ++ [GetItem STORAGE_KEYS.FAVORITES;
           SetItem STORAGE_KEYS.FAVORITES
             (JSON_stringify (toggled p (favorites_of w)))])
  ∧ ((addToRecentProjects p w).1 = Resolved tt
     ∧ toasts (addToRecentProjects p w).2 = toasts w
     ∧ console (addToRecentProjects p w).2
       = console w ++ [("Failed to update recent projects:", e)]
     ∧ localStorage (addToRecentProjects p w).2 = localStorage w).
Proof.
  intros Hfault. rewrite toggleFavorite_run, addToRecentProjects_run.
  cbv zeta. rewrite Hfault. cbn.
  repeat split. by rewrite <- app_assoc.
Qed.

(** C6: [getFavorites] and [getRecentProjects] resolve in every world;
    they resolve to the empty array when the key is missing or the stored
    text does not parse, and to the parsed array otherwise. *)
Theorem readers_absorb_failures (w : World) :
  ((∃ l, (getFavorites w).1 = Resolved l)
   ∧ (localStorage w !! STORAGE_KEYS.FAVORITES = None →
      (getFavorites w).1 = Resolved [])
   ∧ (∀ s, localStorage w !! STORAGE_KEYS.FAVORITES = Some s →
           JSON_parse (A := list string) s = None →
           (getFavorites w).1 = Resolved [])
   ∧ (∀ s l, localStorage w !! STORAGE_KEYS.FAVORITES = Some s →
             JSON_parse s = Some l → (getFavorites w).1 = Resolved l))
  ∧ ((∃ l, (getRecentProjects w).1 = Resolved l)
     ∧ (localStorage w !! STORAGE_KEYS.RECENT_PROJECTS = None →
        (getRecentProjects w).1 = Resolved [])
     ∧ (∀ s, localStorage w !! STORAGE_KEYS.RECENT_PROJECTS = Some s →
             JSON_parse (A := list RecentProject) s = None →
             (getRecentProjects w).1 = Resolved [])
     ∧ (∀ s l, localStorage w !! STORAGE_KEYS.RECENT_PROJECTS = Some s →
               JSON_parse s = Some l →
               (getRecentProjects w).1 = Resolved l)).
Proof.
  rewrite getFavorites_run, getRecentProjects_run.
  unfold favorites_of, recent_of, decode. cbn [fst].
  split; (split; [eexists; reflexivity|]); (split; [by intros ->|]); split.
  - intros s -> Hparse. rewrite Hparse. by destruct (String.eqb s "").
  - intros s l -> Hparse. rewrite Hparse.
    destruct (String.eqb_spec s "") as [->|_]; [|reflexivity].
    rewrite JSON_parse_empty in Hparse. discriminate.
  - intros s -> Hparse. rewrite Hparse. by destruct (String.eqb s "").
  - intros s l -> Hparse. rewrite Hparse.
    destruct (String.eqb_spec s "") as [->|_]; [|reflexivity].
    rewrite JSON_parse_empty in Hparse. discriminate.
Qed.

(** C10: a call of [toggleFavorite p], accepted or not, leaves the
    membership of every other path as it was and keeps the other stored
    favorites in their order; it leaves every storage key but the
    favorites key untouched, the recent-projects key among them, and
    every storage call it makes names the favorites key. *)
Theorem toggleFavorite_frame (p : string) (w : World) :
  (∀ q, q ≠ p →
     q ∈ favorites_of (toggleFavorite p w).2 ↔ q ∈ favorites_of w)
  ∧ filter (λ q, q ≠ p) (favorites_of (toggleFavorite p w).2)
    = filter (λ q, q ≠ p) (favorites_of w)
  ∧ (∀ k, k ≠ STORAGE_KEYS.FAVORITES →
       localStorage (toggleFavorite p w).2 !! k = localStorage w !! k)
  ∧ localStorage (toggleFavorite p w).2 !! STORAGE_KEYS.RECENT_PROJECTS
    = localStorage w !! STORAGE_KEYS.RECENT_PROJECTS
  ∧ (∃ calls,
       storage_calls (toggleFavorite p w).2 = storage_calls w ++ calls
       ∧ Forall (λ c, call_key c = STORAGE_KEYS.FAVORITES) calls
       ∧ Forall (λ c, call_key c ≠ STORAGE_KEYS.RECENT_PROJECTS) calls).
Proof.
  assert (Hcalls : ∃ calls,
       storage_calls (toggleFavorite p w).2 = storage_calls w ++ calls
       ∧ Forall (λ c, call_key c = STORAGE_KEYS.FAVORITES) calls
       ∧ Forall (λ c, call_key c ≠ STORAGE_KEYS.RECENT_PROJECTS) calls).
  { rewrite toggleFavorite_run. cbv zeta.
    eexists [GetItem _; SetItem _ _].
    split; [|split; repeat constructor; discriminate].
    destruct (setItem_fault w); cbn; by rewrite <- app_assoc. }
  destruct (setItem_fault w) as [e|] eqn:Hfault.
  - assert (Hst : localStorage (toggleFavorite p w).2 = localStorage w).
    { rewrite toggleFavorite_run. cbv zeta. by rewrite Hfault. }
    unfold favorites_of. rewrite Hst. repeat split; auto.
  - destruct (toggleFavorite_success p w Hfault) as (_ & Hf & _).
    rewrite Hf.
    assert (Hst : ∀ k, k ≠ STORAGE_KEYS.FAVORITES →
       localStorage (toggleFavorite p w).2 !! k = localStorage w !! k).
    { intros k Hk. rewrite toggleFavorite_run. cbv zeta. rewrite Hfault.
      cbn. by rewrite lookup_insert_ne. }
    split; [intros q Hq; by apply toggled_other|].
    split; [apply toggled_filter|].
    split; [exact Hst|].
    split; [by apply Hst|exact Hcalls].
Qed.

End StoreProperties.

(** ** Recent projects *)

Lemma filter_all {A} (P : A → Prop) `{∀ x, Decision (P x)} (l : list A) :
  Forall P l → filter P l = l.
Proof.
  induction 1 as [|x l Hx _ IH]; [reflexivity|].
  rewrite filter_cons_True by done. by rewrite IH.
Qed.

Lemma filter_none {A} (P : A → Prop) `{∀ x, Decision (P x)} (l : list A) :
  Forall (λ x, ¬ P x) l → filter P l = [].
Proof.
  induction 1 as [|x l Hx _ IH]; [reflexivity|].
  by rewrite filter_cons_False.
Qed.

Lemma recent_added_head (p : string) (now : Z) (l : list RecentProject) :
  recent_added p now l
  = mkRecent p (Some now) :: take 9 (filter (λ r, path r ≠ p) l).
Proof. reflexivity. Qed.

Lemma recent_added_once (p : string) (now : Z) (l : list RecentProject) :
  length (filter (λ r, path r = p) (recent_added p now l)) = 1%nat.
Proof.
  rewrite recent_added_head, filter_cons_True by done. simpl. f_equal.
  rewrite filter_none; [reflexivity|].
  apply Forall_take, Forall_forall. intros r Hr.
  apply list_elem_of_filter in Hr as [Hne _]. intros Heq. by apply Hne.
Qed.

Lemma recent_added_length (p : string) (now : Z) (l : list RecentProject) :
  (length (recent_added p now l) ≤ 10)%nat.
Proof. unfold recent_added. rewrite length_take. lia. Qed.

Section RecentProperties.
Context `{JSON_recent : JSON (list RecentProject)}.

Lemma addToRecentProjects_success (p : string) (w : World) :
  setItem_fault w = None →
  recent_of (addToRecentProjects p w).2
    = recent_added p (clock w) (recent_of w)
  ∧ setItem_fault (addToRecentProjects p w).2 = None.
Proof.
  intros Hok. rewrite addToRecentProjects_run. cbv zeta. rewrite Hok.
  cbn [snd]. split; [|exact Hok].
  unfold recent_of. cbn. rewrite lookup_insert_eq. apply decode_stringify.
Qed.

Lemma add_at_success (w : World) (e : string * Z) :
  setItem_fault w = None →
  recent_of (add_at w e) = recent_added e.1 e.2 (recent_of w)
  ∧ setItem_fault (add_at w e) = None.
Proof.
  intros Hok. unfold add_at.
  destruct (addToRecentProjects_success e.1 (set_clock e.2 w) Hok)
    as [Hrec Hok'].
  split; [exact Hrec|exact Hok'].
Qed.

(** Distinct paths added to an empty list: the ten added last remain,
    the last one first. *)
Lemma add_in_sequence_distinct (entries : list (string * Z)) (w : World) :
  setItem_fault w = None → recent_of w = [] → NoDup entries.*1 →
  recent_of (add_in_sequence entries w)
    = take 10 (reverse (entry_of <$> entries))
  ∧ setItem_fault (add_in_sequence entries w) = None.
Proof.
  intros Hok Hempty. unfold add_in_sequence.
  induction entries as [|e entries IH] using rev_ind; intros Hnd.
  - simpl. by rewrite Hempty.
  - rewrite fmap_app in Hnd. apply NoDup_app in Hnd as (Hnd & Hfresh & _).
    destruct (IH Hnd) as [Hrec Hok']. rewrite foldl_app. cbn [foldl].
    destruct (add_at_success _ e Hok') as [Hrec' Hok''].
    split; [|exact Hok''].
    rewrite Hrec', Hrec, fmap_snoc, reverse_snoc.
    unfold recent_added. rewrite filter_all.
    + change (mkRecent e.1 (Some e.2)) with (entry_of e).
      change 10%nat with (S 9). cbn [take]. f_equal.
      rewrite take_take. f_equal.
    + apply Forall_take, Forall_forall. intros r Hr.
      apply elem_of_reverse, list_elem_of_fmap in Hr as (e' & -> & He').
      intros Heq. apply (Hfresh e'.1).
      * apply list_elem_of_fmap. by exists e'.
      * cbn in Heq. rewrite Heq. cbn. apply list_elem_of_singleton.
        reflexivity.
Qed.

(** C3: when the write is accepted, the stored list after
    [addToRecentProjects p] holds exactly one entry with path [p], at the
    front and stamped with the clock; the entries behind it are the first
    nine of the old entries with another path, in their old order; the
    list has at most ten entries.  After eleven distinct paths added in
    sequence to an empty list, the stored list holds the ten added last,
    the last one first, and the path added first is gone. *)
Theorem addToRecentProjects_spec (p : string) (w : World) :
  setItem_fault w = None →
  (length (filter (λ r, path r = p) (recent_of (addToRecentProjects p w).2))
     = 1%nat
   ∧ head (recent_of (addToRecentProjects p w).2)
     = Some (mkRecent p (Some (clock w)))
   ∧ tail (recent_of (addToRecentProjects p w).2)
     = take 9 (filter (λ r, path r ≠ p) (recent_of w))
   ∧ tail (recent_of (addToRecentProjects p w).2) `sublist_of` recent_of w
   ∧ (length (recent_of (addToRecentProjects p w).2) ≤ 10)%nat)
  ∧ (∀ first rest,
       recent_of w = [] → length rest = 10%nat →
       NoDup (first :: rest).*1 →
       recent_of (add_in_sequence (first :: rest) w)
         = reverse (entry_of <$> rest)
       ∧ first.1 ∉ path <$> recent_of (add_in_sequence (first :: rest) w)).
Proof.
  intros Hok.
  destruct (addToRecentProjects_success p w Hok) as [Hrec _].
  rewrite Hrec. split.
  - split; [apply recent_added_once|].
    rewrite recent_added_head. cbn [head tail].
    split; [reflexivity|]. split; [reflexivity|].
    split; [|apply recent_added_length].
    etrans; [apply sublist_take|apply sublist_filter].
  - intros first rest Hempty Hlen Hnd.
    destruct (add_in_sequence_distinct (first :: rest) w Hok Hempty Hnd)
      as [Hseq _].
    assert (Hten : recent_of (add_in_sequence (first :: rest) w)
                   = reverse (entry_of <$> rest)).
    { rewrite Hseq. cbn [fmap list_fmap]. rewrite reverse_cons.
      rewrite take_app_le by (rewrite length_reverse, length_fmap; lia).
      apply take_ge. rewrite length_reverse, length_fmap. lia. }
    split; [exact Hten|]. rewrite Hten.
    rewrite fmap_reverse, <- list_fmap_compose. intros Hin.
    rewrite elem_of_reverse in Hin.
    cbn [fmap list_fmap] in Hnd. apply NoDup_cons in Hnd as [Hnin _].
    apply Hnin. exact Hin.
Qed.

End RecentProperties.

(** ** Sorting with a comparator *)

Section SortFacts.
Context {A : Type} (cmp : A → A → Z).
Implicit Types (x y : A) (l : list A).

Lemma sort_insert_Permutation x l : sort_insert cmp x l ≡ₚ x :: l.
Proof.
  induction l as [|y l IH]; simpl; [reflexivity|].
  destruct (cmp x y <=? 0); [reflexivity|].
  rewrite IH. apply Permutation_swap.
Qed.

Lemma Array_sort_Permutation l : Array_sort cmp l ≡ₚ l.
Proof.
  induction l as [|x l IH]; simpl; [reflexivity|].
  rewrite sort_insert_Permutation. by f_equiv.
Qed.

Hypothesis cmp_total : ∀ x y, precedes cmp x y ∨ precedes cmp y x.
Hypothesis cmp_trans : ∀ x y z, precedes cmp x y → precedes cmp y z → precedes cmp x z.

Lemma sort_insert_sorted x l :
  StronglySorted (precedes cmp) l → StronglySorted (precedes cmp) (sort_insert cmp x l).
Proof.
  induction 1 as [|y l Hl IH Hy]; simpl; [repeat constructor|].
  destruct (Z.leb_spec (cmp x y) 0) as [Hxy|Hyx].
  - constructor; [by constructor|]. constructor; [exact Hxy|].
    eapply Forall_impl; [exact Hy|]. intros z Hyz. by eapply cmp_trans.
  - constructor; [exact IH|].
    rewrite sort_insert_Permutation. constructor; [|exact Hy].
    destruct (cmp_total x y) as [Hle|Hle]; [unfold precedes in Hle; lia|].
    exact Hle.
Qed.

Lemma Array_sort_sorted l : StronglySorted (precedes cmp) (Array_sort cmp l).
Proof.
  induction l as [|x l IH]; simpl; [constructor|].
  by apply sort_insert_sorted.
Qed.

Hypothesis cmp_tie : ∀ x y, cmp x y = 0 → precedes cmp y x.

Lemma sort_insert_filter_out (P : A → Prop) `{∀ y, Decision (P y)} x l :
  ¬ P x → filter P (sort_insert cmp x l) = filter P l.
Proof.
  intros Hx. induction l as [|y l IH]; simpl.
  - by rewrite filter_cons_False.
  - destruct (cmp x y <=? 0); [by rewrite filter_cons_False|].
    destruct (decide (P y)).
    + rewrite !(filter_cons_True P y) by done. by rewrite IH.
    + rewrite !(filter_cons_False P y) by done. exact IH.
Qed.

Lemma sort_insert_filter_tied w x l :
  cmp w x = 0 →
  filter (λ y, cmp w y = 0) (sort_insert cmp x l)
  = x :: filter (λ y, cmp w y = 0) l.
Proof.
  intros Hwx. induction l as [|y l IH]; simpl.
  - by rewrite filter_cons_True.
  - destruct (Z.leb_spec (cmp x y) 0) as [Hxy|Hxy].
    + by rewrite (filter_cons_True _ x).
    + assert (Hwy : cmp w y ≠ 0).
      { intros Hwy. apply cmp_tie in Hwx.
        assert (precedes cmp x y) as Hle
          by (eapply cmp_trans; [exact Hwx|unfold precedes; lia]).
        unfold precedes in Hle. lia. }
      rewrite !(filter_cons_False _ y) by done. exact IH.
Qed.

(** The sort is stable: projects the comparator ties keep their order. *)
Lemma Array_sort_stable w l :
  filter (λ y, cmp w y = 0) (Array_sort cmp l)
  = filter (λ y, cmp w y = 0) l.
Proof.
  induction l as [|x l IH]; simpl; [reflexivity|].
  destruct (decide (cmp w x = 0)) as [Hwx|Hwx].
  - rewrite sort_insert_filter_tied, filter_cons_True by done. by rewrite IH.
  - rewrite sort_insert_filter_out, filter_cons_False by done. exact IH.
Qed.

End SortFacts.

Lemma StronglySorted_on {A} (P : A → Prop) (R R' : A → A → Prop)
    (l : list A) :
  (∀ x y, P x → P y → R x y → R' x y) →
  Forall P l → StronglySorted R l → StronglySorted R' l.
Proof.
  intros Himp HP Hs. induction Hs as [|x l Hl IH Hx]; [constructor|].
  apply Forall_cons in HP as [Hpx HP].
  constructor; [by apply IH|].
  apply Forall_forall. intros y Hy.
  apply Himp; [exact Hpx| |].
  - by eapply Forall_forall in HP.
  - by eapply Forall_forall in Hx.
Qed.

(** ** The quick-switch comparator *)

Section QuickSwitchFacts.
Context `{Collator}.
Implicit Types (rp : list string) (a b c : Project.t).

Lemma isRecent_index rp a : isRecent rp a ↔ recentIndex rp a ≠ -1.
Proof.
  unfold isRecent, recentIndex. split.
  - intros Hin Heq. by apply Array_indexOf_absent in Heq.
  - intros Hne. destruct (decide (Project.path a ∈ rp)); [done|].
    by apply Array_indexOf_absent in n.
Qed.

Lemma localeCompare_total (s t : string) :
  localeCompare s t ≤ 0 ∨ localeCompare t s ≤ 0.
Proof. pose proof (localeCompare_antisym s t). lia. Qed.

Lemma compareProjects_both rp a b :
  isRecent rp a → isRecent rp b →
  compareProjects rp a b = recentIndex rp a - recentIndex rp b.
Proof.
  rewrite !isRecent_index. unfold compareProjects, recentIndex.
  intros Ha Hb.
  destruct (Z.eqb_spec (Array_indexOf rp (Project.path a)) (-1)); [done|].
  destruct (Z.eqb_spec (Array_indexOf rp (Project.path b)) (-1)); done.
Qed.

Lemma compareProjects_first rp a b :
  isRecent rp a → ¬ isRecent rp b → compareProjects rp a b = -1.
Proof.
  rewrite !isRecent_index. unfold compareProjects, recentIndex.
  intros Ha Hb.
  destruct (Z.eqb_spec (Array_indexOf rp (Project.path a)) (-1)); [done|].
  destruct (Z.eqb_spec (Array_indexOf rp (Project.path b)) (-1)); [done|].
  destruct Hb. congruence.
Qed.

Lemma compareProjects_second rp a b :
  ¬ isRecent rp a → isRecent rp b → compareProjects rp a b = 1.
Proof.
  rewrite !isRecent_index. unfold compareProjects, recentIndex.
  intros Ha Hb.
  destruct (Z.eqb_spec (Array_indexOf rp (Project.path a)) (-1));
    [|destruct Ha; congruence].
  destruct (Z.eqb_spec (Array_indexOf rp (Project.path b)) (-1)); done.
Qed.

Lemma compareProjects_neither rp a b :
  ¬ isRecent rp a → ¬ isRecent rp b →
  compareProjects rp a b = localeCompare (Project.name a) (Project.name b).
Proof.
  rewrite !isRecent_index. unfold compareProjects, recentIndex.
  intros Ha Hb.
  destruct (Z.eqb_spec (Array_indexOf rp (Project.path a)) (-1));
    [|destruct Ha; congruence].
  destruct (Z.eqb_spec (Array_indexOf rp (Project.path b)) (-1));
    [done|destruct Hb; congruence].
Qed.

(** The comparator is consistent: total and transitive. *)
Lemma compareProjects_total rp a b :
  precedes (compareProjects rp) a b ∨ precedes (compareProjects rp) b a.
Proof.
  unfold precedes.
  destruct (decide (isRecent rp a)) as [Ha|Ha];
    destruct (decide (isRecent rp b)) as [Hb|Hb].
  - rewrite !compareProjects_both by done. lia.
  - left. rewrite compareProjects_first by done. lia.
  - right. rewrite compareProjects_first by done. lia.
  - rewrite !compareProjects_neither by done. apply localeCompare_total.
Qed.

Lemma compareProjects_trans rp a b c :
  precedes (compareProjects rp) a b → precedes (compareProjects rp) b c →
  precedes (compareProjects rp) a c.
Proof.
  unfold precedes.
  destruct (decide (isRecent rp a)) as [Ha|Ha];
    destruct (decide (isRecent rp b)) as [Hb|Hb];
    destruct (decide (isRecent rp c)) as [Hc|Hc];
    repeat first
      [ rewrite compareProjects_both by done
      | rewrite compareProjects_first by done
      | rewrite compareProjects_second by done
      | rewrite compareProjects_neither by done ];
    try lia.
  apply localeCompare_trans.
Qed.

Lemma compareProjects_tie rp a b :
  compareProjects rp a b = 0 → precedes (compareProjects rp) b a.
Proof.
  unfold precedes.
  destruct (decide (isRecent rp a)) as [Ha|Ha];
    destruct (decide (isRecent rp b)) as [Hb|Hb];
    repeat first
      [ rewrite compareProjects_both by done
      | rewrite compareProjects_first by done
      | rewrite compareProjects_second by done
      | rewrite compareProjects_neither by done ];
    try lia.
  pose proof (localeCompare_antisym (Project.name a) (Project.name b)). lia.
Qed.

(** X23: projects the comparator ties stay in their discovered order. *)
Lemma sortedProjects_stable (recent : list RecentProject)
    (discovered : list Project.t) (a : Project.t) :
  filter (λ b, compareProjects (path <$> recent) a b = 0)
         (sortedProjects recent discovered)
  = filter (λ b, compareProjects (path <$> recent) a b = 0) discovered.
Proof.
  apply Array_sort_stable;
    [apply compareProjects_trans|apply compareProjects_tie].
Qed.

Lemma sort_insert_recent rp a (rs os : list Project.t) :
  isRecent rp a → Forall (λ b, ¬ isRecent rp b) os →
  sort_insert (compareProjects rp) a (rs ++ os)
  = sort_insert (compareProjects rp) a rs ++ os.
Proof.
  intros Ha Hos. induction rs as [|b rs IH]; simpl.
  - destruct Hos as [|b os Hb Hos]; [reflexivity|]. simpl.
    rewrite compareProjects_first by done. reflexivity.
  - destruct (compareProjects rp a b <=? 0); [reflexivity|].
    simpl. by rewrite IH.
Qed.

Lemma sort_insert_other rp a (rs os : list Project.t) :
  ¬ isRecent rp a → Forall (isRecent rp) rs →
  sort_insert (compareProjects rp) a (rs ++ os)
  = rs ++ sort_insert (compareProjects rp) a os.
Proof.
  intros Ha Hrs. induction Hrs as [|b rs Hb Hrs IH]; simpl; [reflexivity|].
  rewrite compareProjects_second by done. simpl. by rewrite IH.
Qed.

(** Sorting splits into the recent projects, sorted, followed by the
    others, sorted. *)
Lemma Array_sort_split rp (l : list Project.t) :
  Array_sort (compareProjects rp) l
  = Array_sort (compareProjects rp) (filter (isRecent rp) l)
    ++ Array_sort (compareProjects rp) (filter (λ a, ¬ isRecent rp a) l).
Proof.
  induction l as [|a l IH]; [reflexivity|].
  simpl. rewrite IH. destruct (decide (isRecent rp a)) as [Ha|Ha].
  - rewrite (filter_cons_True (isRecent rp)) by done.
    rewrite (filter_cons_False (λ a, ¬ isRecent rp a)) by tauto.
    simpl. apply sort_insert_recent; [exact Ha|].
    rewrite Array_sort_Permutation. apply Forall_forall.
    intros b Hb. by apply list_elem_of_filter in Hb as [Hb _].
  - rewrite (filter_cons_False (isRecent rp)) by done.
    rewrite (filter_cons_True (λ a, ¬ isRecent rp a)) by done.
    simpl. apply sort_insert_other; [exact Ha|].
    rewrite Array_sort_Permutation. apply Forall_forall.
    intros b Hb. by apply list_elem_of_filter in Hb as [Hb _].
Qed.

End QuickSwitchFacts.

(** ** The quick-switch ordering *)

Section QuickSwitchProperties.
Context `{Collator}.

Lemma recentIndex_example (pa pb : string) (c : Project.t) :
  pa ≠ pb → Project.path c ≠ pa → Project.path c ≠ pb →
  Array_indexOf [pb; pa] pb = 0 ∧ Array_indexOf [pb; pa] pa = 1
  ∧ Array_indexOf [pb; pa] (Project.path c) = -1.
Proof.
  intros Hab Hca Hcb. rewrite !Array_indexOf_cons.
  rewrite (decide_True (P := pb = pb)) by done.
  rewrite (decide_False (P := pb = pa)) by done.
  rewrite (decide_True (P := pa = pa)) by done.
  rewrite (decide_False (P := pb = Project.path c)) by done.
  rewrite (decide_False (P := pa = Project.path c)) by done.
  done.
Qed.

Lemma sortedProjects_example (a b c : Project.t) (ta tb : option Z)
    (l : list Project.t) :
  Project.path a ≠ Project.path b → Project.path c ≠ Project.path a →
  Project.path c ≠ Project.path b → l ≡ₚ [a; b; c] →
  sortedProjects [mkRecent (Project.path b) tb; mkRecent (Project.path a) ta]
                 l
  = [b; a; c].
Proof.
  intros Hab Hca Hcb Hl.
  destruct (recentIndex_example _ _ c Hab Hca Hcb) as (Ib & Ia & Ic).
  set (rp := [Project.path b; Project.path a]) in *.
  assert (Hba : compareProjects rp b a = -1)
    by (unfold compareProjects; rewrite Ia, Ib; reflexivity).
  assert (Hab' : compareProjects rp a b = 1)
    by (unfold compareProjects; rewrite Ia, Ib; reflexivity).
  assert (Hac : compareProjects rp a c = -1)
    by (unfold compareProjects; rewrite Ia, Ic; reflexivity).
  assert (Hca' : compareProjects rp c a = 1)
    by (unfold compareProjects; rewrite Ia, Ic; reflexivity).
  assert (Hbc : compareProjects rp b c = -1)
    by (unfold compareProjects; rewrite Ib, Ic; reflexivity).
  assert (Hcb' : compareProjects rp c b = 1)
    by (unfold compareProjects; rewrite Ib, Ic; reflexivity).
  symmetry in Hl. apply permutations_Permutation in Hl.
  unfold sortedProjects, Array_sort. cbn [fmap list_fmap path]. fold rp.
  cbn in Hl.
  repeat (apply elem_of_cons in Hl as [->|Hl]);
    [..|by apply elem_of_nil in Hl];
    cbn [foldr sort_insert];
    repeat (first [rewrite Hba | rewrite Hab' | rewrite Hac | rewrite Hca'
                  | rewrite Hbc | rewrite Hcb'];
            cbn [sort_insert Z.leb Z.compare]);
    reflexivity.
Qed.

(** C4: the quick-switch list is the recent projects followed by the
    others; the recent ones stand by ascending position of their path in
    the recent list, the others by [localeCompare] of their names.  With
    the recent list [B, A] and the projects A, B, C discovered in any
    order, the list is [B, A, C]. *)
Theorem quick_switch_order (recent : list RecentProject)
    (discovered : list Project.t) :
  (∃ rs os,
     sortedProjects recent discovered = rs ++ os
     ∧ rs ≡ₚ filter (isRecent (path <$> recent)) discovered
     ∧ os ≡ₚ filter (λ a, ¬ isRecent (path <$> recent) a) discovered
     ∧ StronglySorted (by_recency (path <$> recent)) rs
     ∧ StronglySorted by_name os)
  ∧ (∀ (a b c : Project.t) (ta tb : option Z) (l : list Project.t),
       Project.path a ≠ Project.path b → Project.path c ≠ Project.path a →
       Project.path c ≠ Project.path b → l ≡ₚ [a; b; c] →
       sortedProjects
         [mkRecent (Project.path b) tb; mkRecent (Project.path a) ta] l
       = [b; a; c]).
Proof.
  split; [|intros; by apply sortedProjects_example].
  unfold sortedProjects. set (rp := path <$> recent).
  eexists _, _. split; [apply Array_sort_split|].
  split; [apply Array_sort_Permutation|].
  split; [apply Array_sort_Permutation|].
  split.
  - eapply (StronglySorted_on (isRecent rp)); cycle 2.
    + apply Array_sort_sorted;
        [apply compareProjects_total|apply compareProjects_trans].
    + intros a b Ha Hb. unfold precedes, by_recency.
      rewrite compareProjects_both by done. lia.
    + rewrite Array_sort_Permutation. apply Forall_forall.
      intros a Ha. by apply list_elem_of_filter in Ha as [Ha _].
  - eapply (StronglySorted_on (λ a, ¬ isRecent rp a)); cycle 2.
    + apply Array_sort_sorted;
        [apply compareProjects_total|apply compareProjects_trans].
    + intros a b Ha Hb. unfold precedes, by_name.
      by rewrite compareProjects_neither by done.
    + rewrite Array_sort_Permutation. apply Forall_forall.
      intros a Ha. by apply list_elem_of_filter in Ha as [Ha _].
Qed.

(** C9: the quick-switch list is a permutation of the discovered list:
    same length, same projects, and a recent path that no discovered
    project has is the path of no project of the list. *)
Theorem sortedProjects_permutation (recent : list RecentProject)
    (discovered : list Project.t) :
  sortedProjects recent discovered ≡ₚ discovered
  ∧ length (sortedProjects recent discovered) = length discovered
  ∧ (∀ a, a ∈ sortedProjects recent discovered ↔ a ∈ discovered)
  ∧ (∀ r, r ∈ recent →
       path r ∉ Project.path <$> discovered →
       path r ∉ Project.path <$> sortedProjects recent discovered).
Proof.
  assert (Hperm : sortedProjects recent discovered ≡ₚ discovered)
    by apply Array_sort_Permutation.
  split; [exact Hperm|].
  split; [by rewrite Hperm|].
  split; [intros a; by rewrite Hperm|].
  intros r _ Hnin. by rewrite Hperm.
Qed.

End QuickSwitchProperties.

(** ** The reference codec and collation satisfy the interfaces *)

Import RefJSON.

Lemma append_assoc (a b c : string) : (a +:+ b) +:+ c = a +:+ (b +:+ c).
Proof.
  induction a as [|x a IH]; [reflexivity|].
  rewrite !append_cons. by rewrite IH.
Qed.

Lemma read_string_body_escape (s rest : string) :
  read_string_body (escape s +:+ String dquote rest) = Some (s, rest).
Proof.
  induction s as [|c s IH].
  - reflexivity.
  - simpl. destruct (needs_escape c) eqn:Hesc.
    + rewrite ?append_cons. simpl. rewrite Hesc, IH. reflexivity.
    + rewrite ?append_cons. simpl. rewrite IH.
      unfold needs_escape in Hesc. apply orb_false_elim in Hesc as [H1 H2].
      by rewrite H1, H2.
Qed.

Lemma read_string_write (s rest : string) :
  read_string (write_string s +:+ rest) = Some (s, rest).
Proof.
  unfold write_string. rewrite append_cons, append_assoc. simpl.
  apply read_string_body_escape.
Qed.

Lemma read_uint_write (d : Decimal.uint) (rest : string) :
  starts_with_digit rest = false →
  read_uint (write_uint d +:+ rest) = (d, rest).
Proof.
  intros Hrest.
  induction d; [|simpl; rewrite ?append_cons; simpl; by rewrite IHd ..].
  simpl. destruct rest as [|c rest]; [reflexivity|].
  simpl in *. destruct (digit c); [|reflexivity].
  rewrite bool_decide_eq_true_2 in Hrest by eauto. discriminate.
Qed.

Lemma write_uint_nonnil d rest :
  d ≠ Decimal.Nil →
  ∃ c s, write_uint d +:+ rest = String c s ∧ c ≠ "-"%char.
Proof.
  destruct d; [done|..]; intros _; simpl; rewrite append_cons;
    eexists _, _; (split; [reflexivity|discriminate]).
Qed.

Lemma read_Z_write (z : Z) (rest : string) :
  starts_with_digit rest = false →
  read_Z (write_Z z +:+ rest) = Some (z, rest).
Proof.
  intros Hrest. unfold write_Z, read_Z.
  pose proof (DecimalZ.of_to z) as Hz.
  destruct (Z.to_int z) as [d|d] eqn:Hd.
  - assert (Hnn : d ≠ Decimal.Nil).
    { destruct z; simpl in Hd; inversion Hd;
        [discriminate|apply Unsigned.to_uint_nonnil]. }
    destruct (write_uint_nonnil d rest Hnn) as (c & s & Hs & Hc).
    pose proof (read_uint_write d rest Hrest) as Hr.
    rewrite Hs in *.
    destruct (Ascii.ascii_dec c "-") as [->|Hne]; [done|].
    assert (Hgoal :
      match read_uint (String c s) with
      | (Decimal.Nil, _) => None
      | (d, rest) => Some (Z.of_int (Decimal.Pos d), rest)
      end = Some (z, rest)).
    { rewrite Hr, Hz. by destruct d. }
    destruct c as [[] [] [] [] [] [] [] []]; try exact Hgoal. done.
  - assert (Hnn : d ≠ Decimal.Nil).
    { destruct z; simpl in Hd; inversion Hd. apply Unsigned.to_uint_nonnil. }
    rewrite append_cons. rewrite (read_uint_write d rest Hrest), Hz.
    by destruct d.
Qed.

Lemma expect_append (lit rest : string) : expect lit (lit +:+ rest) = Some rest.
Proof. unfold expect. by rewrite prefix_app, String_slice_app. Qed.

Lemma read_recent_write (r : RecentProject) (rest : string) :
  read_recent (write_recent r +:+ rest) = Some (r, rest).
Proof.
  destruct r as [p [t|]]; unfold read_recent, write_recent;
    cbn [path lastAccessed]; rewrite !append_assoc;
    rewrite <- (append_assoc "{" key_path), expect_append;
    cbn [mbind option_bind];
    rewrite read_string_write; cbn [mbind option_bind].
  - rewrite append_cons, append_nil.
    change (expect "}" (String "," ?s)) with (@None string).
    cbv beta iota.
    change (String "," ?s) with ("," +:+ s).
    rewrite <- (append_assoc "," key_lastAccessed), expect_append.
    cbn [mbind option_bind].
    rewrite read_Z_write by reflexivity. cbn [mbind option_bind].
    rewrite expect_append. reflexivity.
  - rewrite append_nil, expect_append. reflexivity.
Qed.

Lemma length_append (a b : string) :
  String.length (a +:+ b) = (String.length a + String.length b)%nat.
Proof.
  induction a as [|c a IH]; [reflexivity|].
  rewrite append_cons. simpl. by rewrite IH.
Qed.

Section ArrayLaws.
Context {A : Type} (write_item : A → string)
        (read_item : string → option (A * string)).
Hypothesis read_write_item :
  ∀ a rest, read_item (write_item a +:+ rest) = Some (a, rest).

Lemma read_items_write (l : list A) (a : A) (fuel : nat) :
  (length l < fuel)%nat →
  read_items read_item fuel (write_items write_item (a :: l) +:+ "]")
  = Some (a :: l).
Proof.
  revert a fuel. induction l as [|b l IH]; intros a fuel Hfuel.
  - destruct fuel as [|fuel]; [simpl in Hfuel; lia|].
    cbn [write_items read_items]. by rewrite read_write_item.
  - destruct fuel as [|fuel]; [simpl in Hfuel; lia|].
    change (write_items write_item (a :: b :: l))
      with (write_item a +:+ "," +:+ write_items write_item (b :: l)).
    rewrite !append_assoc. cbn [read_items]. rewrite read_write_item.
    rewrite append_cons, append_nil.
    rewrite IH by (simpl in Hfuel; lia). reflexivity.
Qed.

Lemma write_items_length (l : list A) (a : A) :
  (length l < String.length (write_items write_item (a :: l) +:+ "]"))%nat.
Proof.
  revert a. induction l as [|b l IH]; intros a.
  - cbn [write_items]. rewrite length_append. simpl. lia.
  - change (write_items write_item (a :: b :: l))
      with (write_item a +:+ "," +:+ write_items write_item (b :: l)).
    rewrite !append_assoc, length_append, append_cons, append_nil.
    specialize (IH b). simpl in *. lia.
Qed.

Hypothesis write_item_head :
  ∀ a, ∃ c s, write_item a = String c s ∧ c ≠ "]"%char.

Lemma read_array_write (l : list A) :
  read_array read_item (write_array write_item l) = Some l.
Proof.
  unfold write_array. destruct l as [|a l]; [reflexivity|].
  rewrite append_cons, append_nil.
  pose proof (read_items_write l a _ (write_items_length l a)) as Hrt.
  assert (Hhd : ∃ c s, write_items write_item (a :: l) +:+ "]" = String c s
                       ∧ c ≠ "]"%char).
  { destruct (write_item_head a) as (c & s & Hs & Hc).
    destruct l as [|b l].
    - cbn [write_items]. rewrite Hs, append_cons. eauto.
    - change (write_items write_item (a :: b :: l))
        with (write_item a +:+ "," +:+ write_items write_item (b :: l)).
      rewrite Hs, !append_cons. eauto. }
  destruct Hhd as (c & s & Hs & Hc). rewrite Hs in *.
  unfold read_array.
  destruct (Ascii.ascii_dec c "]") as [->|_]; [done|].
  destruct c as [[] [] [] [] [] [] [] []]; try exact Hrt. done.
Qed.

End ArrayLaws.

Lemma write_string_head (s : string) :
  ∃ c r, write_string s = String c r ∧ c ≠ "]"%char.
Proof. eexists _, _. split; [reflexivity|discriminate]. Qed.

Lemma write_recent_head (r : RecentProject) :
  ∃ c s, write_recent r = String c s ∧ c ≠ "]"%char.
Proof.
  unfold write_recent. rewrite append_cons.
  eexists _, _. split; [reflexivity|discriminate].
Qed.

#[global] Instance RefJSON_favorites : JSON (list string) := {|
  JSON_stringify := write_array write_string;
  JSON_parse := read_array read_string;
  JSON_parse_stringify :=
    read_array_write write_string read_string read_string_write
      write_string_head;
  JSON_parse_empty := eq_refl;
|}.

#[global] Instance RefJSON_recent : JSON (list RecentProject) := {|
  JSON_stringify := write_array write_recent;
  JSON_parse := read_array read_recent;
  JSON_parse_stringify :=
    read_array_write write_recent read_recent read_recent_write
      write_recent_head;
  JSON_parse_empty := eq_refl;
|}.

Lemma code_unit_compare_antisym (a b : string) :
  Z.sgn (code_unit_compare a b) = - Z.sgn (code_unit_compare b a).
Proof.
  revert b. induction a as [|x a IH]; intros [|y b]; simpl; try reflexivity.
  destruct
    (Z.eqb_spec (Z.of_nat (nat_of_ascii x) - Z.of_nat (nat_of_ascii y)) 0);
    destruct
      (Z.eqb_spec (Z.of_nat (nat_of_ascii y) - Z.of_nat (nat_of_ascii x)) 0);
    try lia.
  apply IH.
Qed.

Lemma code_unit_compare_trans (a b c : string) :
  code_unit_compare a b ≤ 0 → code_unit_compare b c ≤ 0 →
  code_unit_compare a c ≤ 0.
Proof.
  revert b c. induction a as [|x a IH]; intros [|y b] [|z c]; simpl; try lia.
  destruct
    (Z.eqb_spec (Z.of_nat (nat_of_ascii x) - Z.of_nat (nat_of_ascii y)) 0);
    destruct
      (Z.eqb_spec (Z.of_nat (nat_of_ascii y) - Z.of_nat (nat_of_ascii z)) 0);
    destruct
      (Z.eqb_spec (Z.of_nat (nat_of_ascii x) - Z.of_nat (nat_of_ascii z)) 0);
    try lia.
  apply IH.
Qed.

#[global] Instance code_unit_collator : Collator := {|
  localeCompare := code_unit_compare;
  localeCompare_antisym := code_unit_compare_antisym;
  localeCompare_trans := code_unit_compare_trans;
|}.


(** ** Runs on concrete worlds *)

Example stored_text_after_toggle :
  localStorage (toggleFavorite "/Users/alice/app" fresh_world).2
    !! STORAGE_KEYS.FAVORITES
  = Some (write_array write_string ["/Users/alice/app"]).
Proof. vm_compute. reflexivity. Qed.

(** The condition that no path is stored twice cannot be left out: on
    the array [a, a], which no toggle writes, two toggles of [a] splice
    out both entries. *)
Lemma toggleFavorite_twice_duplicate :
  setItem_fault duplicate_world = None
  ∧ favorites_of duplicate_world = ["a"; "a"]
  ∧ favorites_of
      (toggleFavorite "a" (toggleFavorite "a" duplicate_world).2).2 = []
  ∧ ¬ toggle_round_trip "a" duplicate_world.
Proof.
  split; [reflexivity|]. split; [vm_compute; reflexivity|].
  assert (Hafter : favorites_of
      (toggleFavorite "a" (toggleFavorite "a" duplicate_world).2).2 = [])
    by (vm_compute; reflexivity).
  split; [exact Hafter|].
  intros [Hmem _]. specialize (Hmem "a"). cbv zeta in Hmem.
  rewrite Hafter in Hmem.
  assert (Hin : "a" ∈ favorites_of duplicate_world).
  { replace (favorites_of duplicate_world) with ["a"; "a"]
      by (vm_compute; reflexivity).
    apply elem_of_cons. by left. }
  apply Hmem in Hin. by apply elem_of_nil in Hin.
Qed.

(** Two toggles of [a] on the stored favorites [b, a]. *)
Lemma toggleFavorite_twice_witness :
  setItem_fault favorites_world = None
  ∧ favorites_stored favorites_world = true
  ∧ NoDup (favorites_of favorites_world)
  ∧ favorites_of (toggleFavorite "a" favorites_world).2 = ["b"]
  ∧ toggle_round_trip "a" favorites_world.
Proof.
  assert (Hok : setItem_fault favorites_world = None) by reflexivity.
  assert (Hst : favorites_stored favorites_world = true)
    by (vm_compute; reflexivity).
  assert (Hnd : NoDup (favorites_of favorites_world))
    by (apply (bool_decide_unpack _); vm_compute; exact I).
  split; [exact Hok|]. split; [exact Hst|]. split; [exact Hnd|].
  split; [vm_compute; reflexivity|].
  exact (proj1 (toggleFavorite_twice "a" favorites_world Hok Hst Hnd)).
Defined.

(** A rejected write while removing [a], while adding [b], and while
    recording [b] as opened. *)
Lemma write_failure_handling_witness :
  setItem_fault failing_world = Some (ErrorObject "quota exceeded")
  ∧ (toggleFavorite "a" failing_world).1 = Resolved false
  ∧ (toggleFavorite "b" failing_world).1 = Resolved false
  ∧ toasts (toggleFavorite "b" failing_world).2
    = [mkToast Failure "Failed to update favorites"
         (Some "quota exceeded")]
  ∧ console (addToRecentProjects "b" failing_world).2
    = [("Failed to update recent projects:", ErrorObject "quota exceeded")].
Proof.
  assert (Hfault : setItem_fault failing_world
                   = Some (ErrorObject "quota exceeded")) by reflexivity.
  split; [exact Hfault|].
  destruct (write_failure_handling "a" failing_world _ Hfault)
    as [(Hremove & _) _].
  destruct (write_failure_handling "b" failing_world _ Hfault)
    as [(Hadd & Htoast & _) (_ & _ & Hlog & _)].
  split; [exact Hremove|]. split; [exact Hadd|].
  split; [exact Htoast|exact Hlog].
Defined.

(** One path added to an empty store, and eleven added in sequence. *)
Lemma addToRecentProjects_spec_witness :
  setItem_fault fresh_world = None
  ∧ head (recent_of (addToRecentProjects "p01" fresh_world).2)
    = Some (mkRecent "p01" (Some 1762041600000))
  ∧ path <$> recent_of (add_in_sequence eleven_entries fresh_world)
    = ["p11"; "p10"; "p09"; "p08"; "p07"; "p06"; "p05"; "p04"; "p03"; "p02"].
Proof.
  assert (Hok : setItem_fault fresh_world = None) by reflexivity.
  split; [exact Hok|].
  destruct (addToRecentProjects_spec "p01" fresh_world Hok)
    as [(_ & Hhead & _) Heleven].
  split; [exact Hhead|].
  destruct (Heleven ("p01", 1) (tail eleven_entries)) as [Hseq _].
  - vm_compute. reflexivity.
  - reflexivity.
  - apply (bool_decide_unpack _). vm_compute. exact I.
  - change (("p01", 1) :: tail eleven_entries) with eleven_entries in Hseq.
    rewrite Hseq. vm_compute. reflexivity.
Defined.

(** The quick-switch list for the recent list [B, A] and the projects
    A, B, C, under the comparison by code units. *)
Example quick_switch_BAC :
  let A := Project.mk "/p/A" "A" ".git" None in
  let B := Project.mk "/p/B" "B" "go.mod" None in
  let C := Project.mk "/p/C" "C" "Makefile" None in
  sortedProjects [mkRecent "/p/B" (Some 20); mkRecent "/p/A" (Some 10)] [A; B; C]
  = [B; A; C]
  ∧ sortedProjects [] [C; B; A] = [A; B; C].
Proof. vm_compute. split; reflexivity. Qed.

(** * Further properties of the sources *)

(** ** Path display, project types, icons, dates *)

Lemma prefix_split (a s : string) :
  String.prefix a s = true → s = a +:+ String_slice (String.length a) s.
Proof.
  revert s. induction a as [|c a IH]; intros s Hp; [by destruct s|].
  destruct s as [|d s]; [discriminate|]. simpl in Hp.
  destruct (Ascii.ascii_dec c d) as [->|]; [|discriminate].
  rewrite append_cons. simpl. f_equal. by apply IH.
Qed.

(** X1: [formatDisplayPath] rewrites exactly one leading copy of the home
    directory: either the path is the home directory followed by some
    rest and the result is [~] followed by that rest (later copies of the
    home directory inside the rest stay), or the path does not start with
    the home directory and is returned unchanged. *)
Theorem formatDisplayPath_leading_home (home path : string) :
  (∃ rest, path = home +:+ rest
           ∧ formatDisplayPath home path = "~" +:+ rest)
  ∨ (String_startsWith path home = false
     ∧ formatDisplayPath home path = path).
Proof.
  rewrite formatDisplayPath_unfold.
  destruct (String_startsWith path home) eqn:Hp; [left|by right].
  exists (String_slice (String.length home) path).
  split; [by apply prefix_split|reflexivity].
Qed.

(** A path under the home directory, on which [formatDisplayPath] and the
    function of the test suite agree. *)
Lemma formatDisplayPath_agrees_with_test_witness :
  formatDisplayPath "/Users/testuser" "/Users/testuser/projects/myapp"
  = test_formatDisplayPath "/Users/testuser" "/Users/testuser/projects/myapp".
Proof.
  apply formatDisplayPath_agrees_with_test. intros _ _. reflexivity.
Defined.

Lemma markerTypes_values_nonempty (m v : string) :
  markerTypes !! m = Some v → v ≠ "".
Proof.
  intros Hm.
  assert (Hall : map_Forall (λ _ v, v ≠ "") markerTypes).
  { apply (bool_decide_unpack _). vm_compute. exact I. }
  exact (Hall m v Hm).
Qed.

Lemma formatProjectType_defined (marker : string) :
  formatProjectType marker ≠ JsUndefined.
Proof.
  unfold formatProjectType.
  destruct (truthy (get_property markerTypes marker)) eqn:Ht; [|done].
  intros Hu. rewrite Hu in Ht. discriminate.
Qed.

(** X3: what [formatProjectType] returns for every marker: the table's
    type name for a marker of the table; the inherited member for a
    property name of [Object.prototype]; the marker itself for every other
    string, the empty string included.  It never returns [undefined]. *)
Theorem formatProjectType_cases (marker : string) :
  (∀ v, markerTypes !! marker = Some v →
        formatProjectType marker = JsString v)
  ∧ (markerTypes !! marker = None → marker ∈ Object_prototype →
     formatProjectType marker = JsInherited marker)
  ∧ (markerTypes !! marker = None → marker ∉ Object_prototype →
     formatProjectType marker = JsString marker)
  ∧ formatProjectType marker ≠ JsUndefined.
Proof.
  assert (Hknown : ∀ v, markerTypes !! marker = Some v →
                        formatProjectType marker = JsString v).
  { intros v Hv. unfold formatProjectType, get_property. rewrite Hv. simpl.
    destruct (String.eqb_spec v "") as [->|_]; [|reflexivity].
    by apply markerTypes_values_nonempty in Hv. }
  split; [exact Hknown|].
  split; [intros _; apply formatProjectType_inherited|].
  split; [apply formatProjectType_unmapped|].
  apply formatProjectType_defined.
Qed.

(** X4: [getProjectIcon] and the [getIconType] the test suite runs in its
    place classify every project alike; a string [getProjectIcon] returns
    is the project's own icon, and neither it nor its trimmed form is
    empty. *)
Theorem getProjectIcon_matches_test (String_trim : string → string)
    (project : Project.t) :
  icon_type (getProjectIcon String_trim project)
  = getIconType String_trim (Project.marker project) (Project.icon project)
  ∧ (∀ s, getProjectIcon String_trim project = CustomIcon s →
          Project.icon project = Some s ∧ s ≠ "" ∧ String_trim s ≠ "").
Proof.
  unfold getProjectIcon, getIconType. split.
  - destruct (icon_given String_trim (Project.icon project)); [reflexivity|].
    repeat match goal with
    | |- context [String.eqb ?a ?b] =>
        destruct (String.eqb_spec a b) as [->|?]
    end; try reflexivity.
    rewrite bool_decide_eq_false_2; [reflexivity|].
    rewrite !elem_of_cons, elem_of_nil. naive_solver.
  - intros s Hs.
    destruct (icon_given String_trim (Project.icon project)) eqn:Hg.
    + destruct (Project.icon project) as [icon|]; simpl in Hg;
        [|discriminate].
      simpl in Hs. injection Hs as <-.
      apply andb_prop in Hg as [H1 H2].
      destruct (String.eqb_spec icon ""); [discriminate|].
      destruct (String.eqb_spec (String_trim icon) ""); [discriminate|].
      done.
    + repeat match type of Hs with
      | context [String.eqb ?a ?b] => destruct (String.eqb a b)
      end; discriminate.
Qed.

(** X5: a modification time later than now (a clock set back, a file
    stamped in the future) is shown with a negative count of days. *)
Theorem formatDate_future (now t : Z) :
  now < t →
  (now - t) `div` MS_PER_DAY < 0
  ∧ formatDate now (Some t)
    = pretty ((now - t) `div` MS_PER_DAY) +:+ " days ago".
Proof.
  intros Hlt.
  assert (Hd : (now - t) `div` MS_PER_DAY < 0).
  { apply Z.div_lt_upper_bound; [apply MS_PER_DAY_pos|lia]. }
  split; [exact Hd|]. unfold formatDate.
  destruct (Z.eqb_spec ((now - t) `div` MS_PER_DAY) 0); [lia|].
  destruct (Z.eqb_spec ((now - t) `div` MS_PER_DAY) 1); [lia|].
  destruct (Z.ltb_spec ((now - t) `div` MS_PER_DAY) 7); [reflexivity|lia].
Qed.

Lemma formatDate_future_witness :
  1762041600000 < 1762041600001
  ∧ formatDate 1762041600000 (Some 1762041600001) = "-1 days ago".
Proof.
  assert (Hlt : 1762041600000 < 1762041600001) by lia.
  split; [exact Hlt|].
  destruct (formatDate_future _ _ Hlt) as [_ ->]. vm_compute. reflexivity.
Defined.

(** X6: for a modification time not later than now the text is Today,
    Yesterday, or a count with its unit, and the count is 2 to 6 for days,
    1 to 4 for weeks, 1 to 12 for months and at least 1 for years. *)
Theorem formatDate_counts (now t : Z) :
  t ≤ now →
  formatDate now (Some t) = "Today"
  ∨ formatDate now (Some t) = "Yesterday"
  ∨ (∃ n, 2 ≤ n ≤ 6 ∧ formatDate now (Some t) = pretty n +:+ " days ago")
  ∨ (∃ n, 1 ≤ n ≤ 4 ∧ formatDate now (Some t) = pretty n +:+ " weeks ago")
  ∨ (∃ n, 1 ≤ n ≤ 12
          ∧ formatDate now (Some t) = pretty n +:+ " months ago")
  ∨ (∃ n, 1 ≤ n ∧ formatDate now (Some t) = pretty n +:+ " years ago").
Proof.
  intros Hle. unfold formatDate.
  set (d := (now - t) `div` MS_PER_DAY).
  assert (Hd : 0 ≤ d) by (apply Z.div_pos; [lia|apply MS_PER_DAY_pos]).
  destruct (Z.eqb_spec d 0); [by left|].
  destruct (Z.eqb_spec d 1); [by right; left|].
  destruct (Z.ltb_spec d 7).
  { right; right; left. exists d. split; [lia|reflexivity]. }
  destruct (Z.ltb_spec d 30).
  { right; right; right; left. exists (d `div` 7).
    split; [|reflexivity].
    split; [apply Z.div_le_lower_bound; lia|].
    apply Z.lt_succ_r, Z.div_lt_upper_bound; lia. }
  destruct (Z.ltb_spec d 365).
  { right; right; right; right; left. exists (d `div` 30).
    split; [|reflexivity].
    split; [apply Z.div_le_lower_bound; lia|].
    apply Z.lt_succ_r, Z.div_lt_upper_bound; lia. }
  right; right; right; right; right. exists (d `div` 365).
  split; [apply Z.div_le_lower_bound; lia|reflexivity].
Qed.

Lemma formatDate_counts_witness :
  1761000000000 ≤ 1762041600000
  ∧ (formatDate 1762041600000 (Some 1761000000000) = "Today"
     ∨ formatDate 1762041600000 (Some 1761000000000) = "Yesterday"
     ∨ (∃ n, 2 ≤ n ≤ 6
             ∧ formatDate 1762041600000 (Some 1761000000000)
               = pretty n +:+ " days ago")
     ∨ (∃ n, 1 ≤ n ≤ 4
             ∧ formatDate 1762041600000 (Some 1761000000000)
               = pretty n +:+ " weeks ago")
     ∨ (∃ n, 1 ≤ n ≤ 12
             ∧ formatDate 1762041600000 (Some 1761000000000)
               = pretty n +:+ " months ago")
     ∨ (∃ n, 1 ≤ n
             ∧ formatDate 1762041600000 (Some 1761000000000)
               = pretty n +:+ " years ago")).
Proof.
  assert (Hle : 1761000000000 ≤ 1762041600000) by lia.
  split; [exact Hle|exact (formatDate_counts _ _ Hle)].
Defined.

(** ** The favorites store *)

Section FavoritesExtras.
Context `{JSON_favorites : JSON (list string)}.

(** X7: when the write is accepted and the path occurs at most once among
    the stored favorites, the answer of [toggleFavorite] tells whether the
    path is a favorite after the call. *)
Theorem toggleFavorite_answer (p : string) (w : World) :
  setItem_fault w = None →
  (occurrences p (favorites_of w) ≤ 1)%nat →
  (toggleFavorite p w).1
  = Resolved (bool_decide (p ∈ favorites_of (toggleFavorite p w).2)).
Proof.
  intros Hok Hocc.
  destruct (toggleFavorite_success p w Hok) as (-> & -> & _). f_equal.
  destruct (decide (p ∈ favorites_of w)) as [Hin|Hnin].
  - rewrite bool_decide_eq_false_2 by (intros Hn; by apply Hn).
    symmetry. apply bool_decide_eq_false_2. by apply toggled_single.
  - rewrite bool_decide_eq_true_2 by done.
    symmetry. apply bool_decide_eq_true_2.
    rewrite (toggled_absent p _ Hnin), elem_of_app, list_elem_of_singleton.
    by right.
Qed.

Lemma toggle_in_sequence_success (paths : list string) (w : World) :
  setItem_fault w = None → NoDup (favorites_of w) →
  NoDup (favorites_of (toggle_in_sequence paths w))
  ∧ setItem_fault (toggle_in_sequence paths w) = None.
Proof.
  unfold toggle_in_sequence. revert w.
  induction paths as [|p paths IH]; intros w Hok Hnd; [done|].
  simpl. destruct (toggleFavorite_success p w Hok) as (_ & Hf & Hok').
  apply IH; [exact Hok'|]. rewrite Hf. by apply toggled_NoDup.
Qed.

(** X8: starting from stored favorites without repetition (an empty or
    missing key among them), no sequence of accepted toggles stores a
    path twice; each path then occurs at most once. *)
Theorem toggle_in_sequence_NoDup (paths : list string) (w : World) :
  setItem_fault w = None → NoDup (favorites_of w) →
  NoDup (favorites_of (toggle_in_sequence paths w))
  ∧ ∀ p, (occurrences p (favorites_of (toggle_in_sequence paths w)) ≤ 1)%nat.
Proof.
  intros Hok Hnd.
  destruct (toggle_in_sequence_success paths w Hok Hnd) as [Hnd' _].
  split; [exact Hnd'|]. intros p. by apply NoDup_occurrences.
Qed.


(** X10: every call of [toggleFavorite] resolves, shows exactly one toast
    and writes nothing on the console.  When the favorites key is missing
    or holds an array of paths, the toast is a success toast whose title
    agrees with the answer if the write is accepted, and the failure
    toast of the write's error, with the answer [false], if it is
    rejected. *)
Theorem toggleFavorite_one_toast (p : string) (w : World) :
  ∃ (answer : bool) (t : ToastOptions),
    (toggleFavorite p w).1 = Resolved answer
    ∧ toasts (toggleFavorite p w).2 = toasts w ++ [t]
    ∧ console (toggleFavorite p w).2 = console w
    ∧ (favorites_stored w = true →
       (setItem_fault w = None →
        style t = Success
        ∧ title t = if answer then "Added to Favorites"
                    else "Removed from Favorites")
       ∧ (∀ e, setItem_fault w = Some e →
               t = failure_toast e ∧ answer = false)).
Proof.
  rewrite toggleFavorite_run. cbv zeta.
  destruct (setItem_fault w) as [e|]; eexists _, _; cbn;
    (split; [reflexivity|]); (split; [reflexivity|]);
    (split; [reflexivity|]); intros _.
  - split; [discriminate|]. intros e' [= <-]. done.
  - split; [|discriminate]. intros _. split; [reflexivity|].
    by destruct (_ =? _).
Qed.

End FavoritesExtras.

Lemma toggleFavorite_answer_witness :
  setItem_fault fresh_world = None
  ∧ (occurrences "a" (favorites_of fresh_world) ≤ 1)%nat
  ∧ (toggleFavorite "a" fresh_world).1 = Resolved true.
Proof.
  assert (Hok : setItem_fault fresh_world = None) by reflexivity.
  assert (Hocc : (occurrences "a" (favorites_of fresh_world) ≤ 1)%nat)
    by (vm_compute; lia).
  split; [exact Hok|]. split; [exact Hocc|].
  rewrite (toggleFavorite_answer "a" fresh_world Hok Hocc).
  vm_compute. reflexivity.
Defined.

Lemma toggle_in_sequence_NoDup_witness :
  setItem_fault fresh_world = None
  ∧ NoDup (favorites_of fresh_world)
  ∧ NoDup (favorites_of
             (toggle_in_sequence ["a"; "b"; "a"; "c"; "a"] fresh_world)).
Proof.
  assert (Hok : setItem_fault fresh_world = None) by reflexivity.
  assert (Hnd : NoDup (favorites_of fresh_world))
    by (apply (bool_decide_unpack _); vm_compute; exact I).
  split; [exact Hok|]. split; [exact Hnd|].
  exact (proj1 (toggle_in_sequence_NoDup _ fresh_world Hok Hnd)).
Defined.


(** ** The recent-projects store *)

Lemma filter_path_absent (p : string) (l : list RecentProject) :
  p ∉ path <$> l → filter (λ r, path r ≠ p) l = l.
Proof.
  intros Hnin. apply filter_all, Forall_forall. intros r Hr Heq.
  apply Hnin, list_elem_of_fmap. by exists r.
Qed.

Lemma filter_path_NoDup (p : string) (l : list RecentProject) :
  NoDup (path <$> l) → NoDup (path <$> filter (λ r, path r ≠ p) l).
Proof.
  intros Hnd. eapply sublist_NoDup; [exact Hnd|].
  apply fmap_sublist, sublist_filter.
Qed.

Lemma filter_path_present (p : string) (l : list RecentProject) :
  NoDup (path <$> l) → p ∈ path <$> l →
  p :: (path <$> filter (λ r, path r ≠ p) l) ≡ₚ path <$> l.
Proof.
  induction l as [|r l IH]; intros Hnd Hin; [by apply elem_of_nil in Hin|].
  cbn [fmap list_fmap] in Hnd, Hin |- *.
  apply NoDup_cons in Hnd as [Hr Hnd].
  destruct (decide (path r = p)) as [Heq|Hne].
  - rewrite filter_cons_False by (intros Hn; by apply Hn).
    rewrite filter_path_absent by (by rewrite <- Heq). by rewrite Heq.
  - rewrite filter_cons_True by done. cbn [fmap list_fmap].
    apply elem_of_cons in Hin as [Hin|Hin]; [congruence|].
    rewrite Permutation_swap. f_equiv. by apply IH.
Qed.

Lemma recent_added_NoDup (p : string) (now : Z) (l : list RecentProject) :
  NoDup (path <$> l) → NoDup (path <$> recent_added p now l).
Proof.
  intros Hnd. rewrite recent_added_head. cbn [fmap list_fmap].
  apply NoDup_cons. split.
  - intros Hin. apply list_elem_of_fmap in Hin as (r & Hr & Hin).
    apply elem_of_take in Hin as (i & Hin & _).
    apply list_elem_of_lookup_2, list_elem_of_filter in Hin as [Hne _].
    by apply Hne.
  - eapply sublist_NoDup; [exact (filter_path_NoDup p l Hnd)|].
    apply fmap_sublist, sublist_take.
Qed.

Lemma recent_added_twice (p : string) (t1 t2 : Z) (l : list RecentProject) :
  recent_added p t2 (recent_added p t1 l) = recent_added p t2 l.
Proof.
  rewrite (recent_added_head p t1 l), !recent_added_head.
  rewrite filter_cons_False by (intros Hn; by apply Hn).
  rewrite filter_all.
  - by rewrite take_take.
  - apply Forall_take, Forall_forall. intros r Hr.
    by apply list_elem_of_filter in Hr as [Hne _].
Qed.

Section RecentExtras.
Context `{JSON_recent : JSON (list RecentProject)}.
Context `{JSON_favorites : JSON (list string)}.

(** X11: a call of [addToRecentProjects], accepted or not, resolves,
    shows no toast, leaves every storage key but the recent-projects key
    as it was (the stored favorites with it) and asks the storage only
    for that key; when that key is missing or holds an array of entries
    and the write is accepted, it writes nothing on the console. *)
Theorem addToRecentProjects_frame (p : string) (w : World) :
  (addToRecentProjects p w).1 = Resolved tt
  ∧ toasts (addToRecentProjects p w).2 = toasts w
  ∧ (∀ k, k ≠ STORAGE_KEYS.RECENT_PROJECTS →
       localStorage (addToRecentProjects p w).2 !! k = localStorage w !! k)
  ∧ favorites_of (addToRecentProjects p w).2 = favorites_of w
  ∧ (∃ calls,
       storage_calls (addToRecentProjects p w).2 = storage_calls w ++ calls
       ∧ Forall (λ c, call_key c = STORAGE_KEYS.RECENT_PROJECTS) calls)
  ∧ (setItem_fault w = None → recent_stored w = true →
     console (addToRecentProjects p w).2 = console w).
Proof.
  rewrite addToRecentProjects_run. cbv zeta.
  assert (Hkeys : ∀ k, k ≠ STORAGE_KEYS.RECENT_PROJECTS →
    localStorage
      (match setItem_fault w with
       | Some e =>
           (Resolved tt,
            log_console "Failed to update recent projects:" e
              (add_attempt p w))
       | None =>
           (Resolved tt,
            with_storage
              (<[STORAGE_KEYS.RECENT_PROJECTS :=
                   JSON_stringify
                     (recent_added p (clock w) (recent_of w))]>
                 (localStorage w))
              (add_attempt p w))
       end).2 !! k = localStorage w !! k).
  { intros k Hk. destruct (setItem_fault w); cbn; [reflexivity|].
    by rewrite lookup_insert_ne. }
  split; [by destruct (setItem_fault w)|].
  split; [by destruct (setItem_fault w)|].
  split; [exact Hkeys|].
  split; [unfold favorites_of; by rewrite Hkeys|].
  split.
  - eexists [GetItem _; SetItem _ _].
    split; [|repeat constructor].
    destruct (setItem_fault w); cbn; by rewrite <- app_assoc.
  - by intros -> _.
Qed.

(** X12: with accepted writes, adding a path twice in succession leaves
    what adding it once at the later time leaves: a single entry for the
    path, at the front, with the later time. *)
Theorem addToRecentProjects_twice (p : string) (t1 t2 : Z) (w : World) :
  setItem_fault w = None →
  recent_of (add_at (add_at w (p, t1)) (p, t2)) = recent_of (add_at w (p, t2)).
Proof.
  intros Hok.
  destruct (add_at_success w (p, t1) Hok) as [H1 Hok1].
  destruct (add_at_success _ (p, t2) Hok1) as [H12 _].
  destruct (add_at_success w (p, t2) Hok) as [H2 _].
  rewrite H12, H1, H2. apply recent_added_twice.
Qed.

Lemma add_in_sequence_NoDup_success (entries : list (string * Z))
    (w : World) :
  setItem_fault w = None → NoDup (path <$> recent_of w) →
  NoDup (path <$> recent_of (add_in_sequence entries w))
  ∧ (entries ≠ [] →
     (length (recent_of (add_in_sequence entries w)) ≤ 10)%nat)
  ∧ setItem_fault (add_in_sequence entries w) = None.
Proof.
  intros Hok Hnd. unfold add_in_sequence.
  induction entries as [|e entries IH] using rev_ind; [done|].
  destruct IH as (Hnd' & _ & Hok'). rewrite foldl_app. cbn [foldl].
  destruct (add_at_success _ e Hok') as [Hrec Hok''].
  rewrite Hrec. split; [by apply recent_added_NoDup|].
  split; [intros _; apply recent_added_length|exact Hok''].
Qed.

(** X13: the stored list keeps at most one entry per path: if it does
    before a sequence of accepted additions it does after it, and after
    at least one addition it holds at most ten entries whatever it held
    before. *)
Theorem add_in_sequence_invariant (entries : list (string * Z))
    (w : World) :
  setItem_fault w = None → NoDup (path <$> recent_of w) →
  NoDup (path <$> recent_of (add_in_sequence entries w))
  ∧ (entries ≠ [] →
     (length (recent_of (add_in_sequence entries w)) ≤ 10)%nat).
Proof.
  intros Hok Hnd.
  destruct (add_in_sequence_NoDup_success entries w Hok Hnd)
    as (H1 & H2 & _).
  by split.
Qed.

(** X14: however many distinct paths are added in sequence to an empty
    list with accepted writes, the stored list is the ten added last (all
    of them when there are fewer), the last one first, each with the time
    it was added at. *)
Theorem add_in_sequence_last_ten (entries : list (string * Z))
    (w : World) :
  setItem_fault w = None → recent_of w = [] → NoDup entries.*1 →
  recent_of (add_in_sequence entries w)
  = reverse (entry_of <$> drop (length entries - 10) entries).
Proof.
  intros Hok Hempty Hnd.
  destruct (add_in_sequence_distinct entries w Hok Hempty Hnd) as [-> _].
  rewrite fmap_drop, reverse_drop, length_fmap.
  destruct (decide (length entries ≤ 10)%nat) as [Hle|Hgt].
  - replace (length entries - (length entries - 10))%nat
      with (length entries) by lia.
    by rewrite !take_ge by (rewrite length_reverse, length_fmap; lia).
  - by replace (length entries - (length entries - 10))%nat
      with 10%nat by lia.
Qed.

(** X15: with an accepted write and at most one stored entry per path:
    re-adding a stored path to a list of at most ten entries evicts
    nothing, the other entries follow the new one in their old order; and
    adding a path the list does not hold to a list of ten entries drops
    exactly the last one. *)
Theorem addToRecentProjects_touch_or_evict (p : string) (w : World) :
  setItem_fault w = None →
  NoDup (path <$> recent_of w) →
  (p ∈ path <$> recent_of w → (length (recent_of w) ≤ 10)%nat →
   recent_of (addToRecentProjects p w).2
   = mkRecent p (Some (clock w)) :: filter (λ r, path r ≠ p) (recent_of w)
   ∧ path <$> recent_of (addToRecentProjects p w).2
     ≡ₚ path <$> recent_of w)
  ∧ (p ∉ path <$> recent_of w → length (recent_of w) = 10%nat →
     recent_of (addToRecentProjects p w).2
     = mkRecent p (Some (clock w)) :: take 9 (recent_of w)).
Proof.
  intros Hok Hnd.
  destruct (addToRecentProjects_success p w Hok) as [-> _].
  rewrite recent_added_head. split.
  - intros Hin Hlen.
    pose proof (filter_path_present p _ Hnd Hin) as Hperm.
    assert (Hshort :
      (length (filter (λ r, path r ≠ p) (recent_of w)) ≤ 9)%nat).
    { apply Permutation_length in Hperm.
      cbn [length] in Hperm. rewrite !length_fmap in Hperm. lia. }
    rewrite take_ge by exact Hshort. split; [reflexivity|exact Hperm].
  - intros Hnin _. by rewrite filter_path_absent.
Qed.

End RecentExtras.

Lemma addToRecentProjects_twice_witness :
  setItem_fault recent_world = None
  ∧ recent_of (add_at (add_at recent_world ("/p/A", 40)) ("/p/A", 50))
    = [mkRecent "/p/A" (Some 50); mkRecent "/p/B" (Some 30);
       mkRecent "/p/C" (Some 10)].
Proof.
  assert (Hok : setItem_fault recent_world = None) by reflexivity.
  split; [exact Hok|].
  rewrite (addToRecentProjects_twice "/p/A" 40 50 recent_world Hok).
  vm_compute. reflexivity.
Defined.

Lemma add_in_sequence_invariant_witness :
  setItem_fault recent_world = None
  ∧ NoDup (path <$> recent_of recent_world)
  ∧ NoDup (path <$> recent_of (add_in_sequence eleven_entries recent_world)).
Proof.
  assert (Hok : setItem_fault recent_world = None) by reflexivity.
  assert (Hnd : NoDup (path <$> recent_of recent_world))
    by (apply (bool_decide_unpack _); vm_compute; exact I).
  split; [exact Hok|]. split; [exact Hnd|].
  exact (proj1 (add_in_sequence_invariant eleven_entries _ Hok Hnd)).
Defined.

Lemma add_in_sequence_last_ten_witness :
  setItem_fault fresh_world = None
  ∧ recent_of fresh_world = []
  ∧ NoDup eleven_entries.*1
  ∧ path <$> recent_of (add_in_sequence (take 3 eleven_entries) fresh_world)
    = ["p03"; "p02"; "p01"].
Proof.
  assert (Hok : setItem_fault fresh_world = None) by reflexivity.
  assert (Hempty : recent_of fresh_world = [])
    by (vm_compute; reflexivity).
  assert (Hnd : NoDup eleven_entries.*1)
    by (apply (bool_decide_unpack _); vm_compute; exact I).
  assert (Hnd3 : NoDup (take 3 eleven_entries).*1)
    by (apply (bool_decide_unpack _); vm_compute; exact I).
  split; [exact Hok|]. split; [exact Hempty|]. split; [exact Hnd|].
  rewrite (add_in_sequence_last_ten _ fresh_world Hok Hempty Hnd3).
  vm_compute. reflexivity.
Defined.

Lemma addToRecentProjects_touch_or_evict_witness :
  setItem_fault recent_world = None
  ∧ NoDup (path <$> recent_of recent_world)
  ∧ path <$> recent_of (addToRecentProjects "/p/C" recent_world).2
    = ["/p/C"; "/p/B"; "/p/A"].
Proof.
  assert (Hok : setItem_fault recent_world = None) by reflexivity.
  assert (Hnd : NoDup (path <$> recent_of recent_world))
    by (apply (bool_decide_unpack _); vm_compute; exact I).
  split; [exact Hok|]. split; [exact Hnd|].
  destruct (addToRecentProjects_touch_or_evict "/p/C" recent_world Hok Hnd)
    as [Htouch _].
  destruct Htouch as [-> _].
  - apply (bool_decide_unpack _). vm_compute. exact I.
  - vm_compute. lia.
  - vm_compute. reflexivity.
Defined.

(** ** The quick-switch command *)

Section QuickSwitchExtras.
Context `{Collator}.
Context `{JSON_recent : JSON (list RecentProject)}.

Lemma openProject_run (opened : Outcome unit) (project : Project.t)
    (w : World) :
  openProject opened project w =
    match opened with
    | Resolved _ => addToRecentProjects (Project.path project) w
    | Rejected e =>
        (Resolved tt, log_toast (error_toast "Failed to open project" e) w)
    end.
Proof.
  unfold openProject, try_catch at 1, mbind, Async_bind, host_call.
  destruct opened as [[]|e]; [|reflexivity].
  rewrite addToRecentProjects_run. cbv zeta.
  by destruct (setItem_fault w).
Qed.

(** X16: [openProject] always resolves.  When the host fails to open the
    project, the only effect is one failure toast carrying the error:
    the storage is neither read nor written and the project is not
    recorded as recent.  When the host opens it, the call does what
    [addToRecentProjects] does for the project's path. *)
Theorem openProject_outcome (opened : Outcome unit) (project : Project.t)
    (w : World) :
  (openProject opened project w).1 = Resolved tt
  ∧ (∀ e, opened = Rejected e →
          (openProject opened project w).2
          = log_toast (error_toast "Failed to open project" e) w)
  ∧ (opened = Resolved tt →
     openProject opened project w
     = addToRecentProjects (Project.path project) w).
Proof.
  rewrite openProject_run. destruct opened as [[]|e].
  - split; [|split; [discriminate|done]].
    rewrite addToRecentProjects_run. cbv zeta.
    by destruct (setItem_fault w).
  - split; [reflexivity|]. split; [|discriminate].
    by intros e' [= <-].
Qed.

(** What [loadProjects] leaves in the view and in the world. *)
Lemma loadProjects_run (binary : Outcome unit)
    (discovered : Outcome (list Project.t)) (st : QuickSwitch.State)
    (w : World) :
  loadProjects binary discovered st w =
    match binary, discovered with
    | Resolved _, Resolved l =>
        (Resolved tt,
         QuickSwitch.mk (sortedProjects (recent_of w) l) false
                        (path <$> recent_of w),
         log_call (GetItem STORAGE_KEYS.RECENT_PROJECTS) w)
    | Resolved _, Rejected e =>
        (Resolved tt,
         QuickSwitch.mk [] false (path <$> recent_of w),
         log_toast (error_toast "Failed to load projects" e)
           (log_console "Failed to load projects:" e
              (log_call (GetItem STORAGE_KEYS.RECENT_PROJECTS) w)))
    | Rejected e, _ =>
        (Resolved tt,
         QuickSwitch.mk [] false (QuickSwitch.recentPaths st),
         log_toast (error_toast "Failed to load projects" e)
           (log_console "Failed to load projects:" e w))
    end.
Proof.
  unfold loadProjects, try_catch_finally, mbind, Command_bind, await,
    host_call.
  cbn -[getRecentProjects].
  destruct binary as [[]|e]; [|reflexivity].
  rewrite getRecentProjects_run.
  destruct discovered as [l|e]; reflexivity.
Qed.

(** X17: [loadProjects] always resolves and leaves [isLoading] false; it
    never writes to the storage.  When the binary is not found, the view
    holds the empty list, keeps its recent paths, and one failure toast
    carries the error.  When the binary is found and the recent-projects
    key is missing or holds an array of entries: if the discovery
    answers, the view holds the sorted list for the stored recent
    projects, with their paths, and no toast is shown; if the discovery
    fails, the view holds the empty list, the recent paths are the
    stored ones, and one failure toast carries the error. *)
Theorem loadProjects_outcome (binary : Outcome unit)
    (discovered : Outcome (list Project.t)) (st : QuickSwitch.State)
    (w : World) :
  (loadProjects binary discovered st w).1.1 = Resolved tt
  ∧ QuickSwitch.isLoading (loadProjects binary discovered st w).1.2 = false
  ∧ localStorage (loadProjects binary discovered st w).2 = localStorage w
  ∧ (∀ e, binary = Rejected e →
       QuickSwitch.projects (loadProjects binary discovered st w).1.2 = []
       ∧ QuickSwitch.recentPaths (loadProjects binary discovered st w).1.2
         = QuickSwitch.recentPaths st
       ∧ toasts (loadProjects binary discovered st w).2
         = toasts w ++ [error_toast "Failed to load projects" e])
  ∧ (binary = Resolved tt → recent_stored w = true →
     (∀ l, discovered = Resolved l →
        QuickSwitch.projects (loadProjects binary discovered st w).1.2
        = sortedProjects (recent_of w) l
        ∧ QuickSwitch.recentPaths (loadProjects binary discovered st w).1.2
          = path <$> recent_of w
        ∧ toasts (loadProjects binary discovered st w).2 = toasts w)
     ∧ (∀ e, discovered = Rejected e →
          QuickSwitch.projects (loadProjects binary discovered st w).1.2 = []
          ∧ QuickSwitch.recentPaths (loadProjects binary discovered st w).1.2
            = path <$> recent_of w
          ∧ toasts (loadProjects binary discovered st w).2
            = toasts w ++ [error_toast "Failed to load projects" e])).
Proof.
  rewrite loadProjects_run.
  destruct binary as [[]|e]; [destruct discovered as [l|e]|]; cbn;
    repeat split; try discriminate; congruence.
Qed.

End QuickSwitchExtras.

(** ** The quick-switch list and the recent list *)

Section IndexFacts.
Context {A : Type} `{EqDecision A}.
Implicit Types (l : list A) (x y : A).

Lemma Array_indexOf_lookup l x :
  x ∈ l → l !! Z.to_nat (Array_indexOf l x) = Some x.
Proof.
  intros Hin.
  assert (Hidx : Array_indexOf l x ≠ -1).
  { intros Habs. by apply Array_indexOf_absent in Habs. }
  destruct (Array_indexOf_present l x Hidx) as (l1 & l2 & -> & _ & -> & _).
  rewrite Nat2Z.id. apply list_lookup_middle. reflexivity.
Qed.

Lemma Array_indexOf_inj l x y :
  x ∈ l → Array_indexOf l x = Array_indexOf l y → x = y.
Proof.
  intros Hin Heq. pose proof (Array_indexOf_lookup l x Hin) as Hx.
  destruct (decide (y ∈ l)) as [Hy|Hy].
  - apply Array_indexOf_lookup in Hy. rewrite Heq in Hx. congruence.
  - apply Array_indexOf_absent in Hy. rewrite Hy in Heq.
    by apply Array_indexOf_absent in Heq.
Qed.

Lemma Array_indexOf_NoDup_lookup l x (i : nat) :
  NoDup l → l !! i = Some x → Array_indexOf l x = Z.of_nat i.
Proof.
  intros Hnd Hi.
  assert (Hin : x ∈ l) by (by eapply list_elem_of_lookup_2).
  pose proof (Array_indexOf_lookup l x Hin) as Hx.
  pose proof (NoDup_lookup l _ _ x Hnd Hx Hi) as Heq.
  destruct (Array_indexOf_range l x) as [Hm|Hr].
  - by apply Array_indexOf_absent in Hm.
  - lia.
Qed.

(** A list without repetition is sorted by the positions of its own
    elements. *)
Lemma NoDup_sorted_by_index l :
  NoDup l →
  StronglySorted (λ x y, Array_indexOf l x ≤ Array_indexOf l y) l.
Proof.
  intros Hnd.
  assert (Hgen : ∀ pre suf, l = pre ++ suf →
    StronglySorted (λ x y, Array_indexOf l x ≤ Array_indexOf l y) suf).
  { intros pre suf. revert pre.
    induction suf as [|x suf IH]; intros pre Hl; [constructor|].
    constructor.
    - apply (IH (pre ++ [x])). by rewrite <- app_assoc.
    - apply Forall_forall. intros y Hy.
      apply list_elem_of_lookup in Hy as [j Hj].
      rewrite (Array_indexOf_NoDup_lookup l x (length pre) Hnd)
        by (rewrite Hl; by apply list_lookup_middle).
      rewrite (Array_indexOf_NoDup_lookup l y (length pre + S j) Hnd).
      + lia.
      + rewrite Hl, lookup_app_r by lia.
        replace (length pre + S j - length pre)%nat with (S j) by lia.
        exact Hj. }
  by apply (Hgen []).
Qed.

End IndexFacts.

Lemma StronglySorted_filter {A} (R : A → A → Prop) (P : A → Prop)
    `{∀ x, Decision (P x)} (l : list A) :
  StronglySorted R l → StronglySorted R (filter P l).
Proof.
  induction 1 as [|x l Hl IH Hx]; [constructor|].
  destruct (decide (P x)).
  - rewrite filter_cons_True by done. constructor; [exact IH|].
    apply Forall_forall. intros y Hy.
    apply list_elem_of_filter in Hy as [_ Hy].
    by eapply Forall_forall in Hx.
  - by rewrite filter_cons_False.
Qed.

Lemma NoDup_fmap_elem_inj {A B} (f : A → B) (l : list A) (x y : A) :
  NoDup (f <$> l) → x ∈ l → y ∈ l → f x = f y → x = y.
Proof.
  induction l as [|z l IH]; intros Hnd Hx Hy Heq;
    [by apply elem_of_nil in Hx|].
  cbn [fmap list_fmap] in Hnd. apply NoDup_cons in Hnd as [Hz Hnd].
  apply elem_of_cons in Hx as [->|Hx]; apply elem_of_cons in Hy as [->|Hy].
  - reflexivity.
  - destruct Hz. rewrite Heq. apply list_elem_of_fmap. by exists y.
  - destruct Hz. rewrite <- Heq. apply list_elem_of_fmap. by exists x.
  - by apply IH.
Qed.

Section QuickSwitchOrder.
Context `{Collator}.
Context `{JSON_recent : JSON (list RecentProject)}.

(** X20: the comparator of the quick-switch sort is a consistent
    comparator: swapping its arguments flips the sign of the result, and
    "not after" is transitive; so the sorted list does not depend on the
    sorting method of the engine. *)
Theorem compareProjects_consistent (recentPathList : list string) :
  (∀ a b, Z.sgn (compareProjects recentPathList a b)
          = - Z.sgn (compareProjects recentPathList b a))
  ∧ (∀ a b c,
       compareProjects recentPathList a b ≤ 0 →
       compareProjects recentPathList b c ≤ 0 →
       compareProjects recentPathList a c ≤ 0).
Proof.
  split; [|apply compareProjects_trans].
  intros a b.
  destruct (decide (isRecent recentPathList a)) as [Ha|Ha];
    destruct (decide (isRecent recentPathList b)) as [Hb|Hb];
    repeat first
      [ rewrite compareProjects_both by done
      | rewrite compareProjects_first by done
      | rewrite compareProjects_second by done
      | rewrite compareProjects_neither by done ];
    try lia.
  apply localeCompare_antisym.
Qed.

Lemma sortedProjects_sorted (recent : list RecentProject)
    (discovered : list Project.t) :
  StronglySorted (precedes (compareProjects (path <$> recent)))
                 (sortedProjects recent discovered).
Proof.
  apply Array_sort_sorted;
    [apply compareProjects_total|apply compareProjects_trans].
Qed.

(** X18: when the recent-projects key is missing or holds an array of
    entries and the write is accepted, a discovered project that has just
    been opened is the first of the quick-switch list at the next load,
    provided the discovered projects have distinct paths. *)
Theorem opened_project_listed_first (a : Project.t)
    (discovered : list Project.t) (st : QuickSwitch.State) (w : World) :
  setItem_fault w = None → recent_stored w = true → a ∈ discovered →
  NoDup (Project.path <$> discovered) →
  head (QuickSwitch.projects
          (loadProjects (Resolved tt) (Resolved discovered) st
             (openProject (Resolved tt) a w).2).1.2)
  = Some a.
Proof.
  intros Hok _ Hin Hnd.
  rewrite openProject_run, loadProjects_run.
  cbn [fst snd QuickSwitch.projects].
  destruct (addToRecentProjects_success (Project.path a) w Hok) as [Hrec _].
  rewrite Hrec, recent_added_head.
  set (recent := mkRecent (Project.path a) (Some (clock w)) :: _).
  assert (Ha0 : recentIndex (path <$> recent) a = 0).
  { unfold recentIndex, recent. cbn [fmap list_fmap path].
    by rewrite Array_indexOf_cons, decide_True. }
  assert (Harec : isRecent (path <$> recent) a).
  { apply isRecent_index. lia. }
  pose proof (sortedProjects_sorted recent discovered) as Hsorted.
  assert (Hperm : sortedProjects recent discovered ≡ₚ discovered)
    by apply Array_sort_Permutation.
  assert (Hain : a ∈ sortedProjects recent discovered) by (by rewrite Hperm).
  destruct (sortedProjects recent discovered) as [|x rest] eqn:Hout;
    [by apply elem_of_nil in Hain|].
  cbn [head]. f_equal.
  apply elem_of_cons in Hain as [->|Harest]; [reflexivity|].
  apply StronglySorted_inv in Hsorted as [_ Hx].
  eapply Forall_forall in Hx; [|exact Harest]. unfold precedes in Hx.
  assert (Hxin : x ∈ discovered).
  { rewrite <- Hperm. apply elem_of_cons. by left. }
  destruct (decide (isRecent (path <$> recent) x)) as [Hxrec|Hxrec].
  - rewrite compareProjects_both in Hx by done. rewrite Ha0 in Hx.
    apply isRecent_index in Hxrec.
    destruct (Array_indexOf_range (path <$> recent) (Project.path x)) as [?|?];
      [done|].
    assert (Hidx : recentIndex (path <$> recent) x
                   = recentIndex (path <$> recent) a)
      by (unfold recentIndex in *; lia).
    apply (NoDup_fmap_elem_inj Project.path discovered); try done.
    apply (Array_indexOf_inj (path <$> recent)); [|exact Hidx].
    apply isRecent_index. unfold recentIndex in *. lia.
  - rewrite compareProjects_second in Hx by done. lia.
Qed.

Lemma recent_part_sorted (rp : list string) (l : list Project.t) :
  StronglySorted (by_recency rp)
    (Array_sort (compareProjects rp) (filter (isRecent rp) l)).
Proof.
  eapply (StronglySorted_on (isRecent rp)); cycle 2.
  - apply Array_sort_sorted;
      [apply compareProjects_total|apply compareProjects_trans].
  - intros a b Ha Hb. unfold precedes, by_recency.
    rewrite compareProjects_both by done. lia.
  - rewrite Array_sort_Permutation. apply Forall_forall.
    intros a Ha. by apply list_elem_of_filter in Ha as [Ha _].
Qed.

(** X19: when the stored recent list has one entry per path and the
    discovered projects have distinct paths, the quick-switch list is its
    recent projects followed by the others, and the recent projects,
    read by path, are the recent list with the paths that were not
    discovered left out, in the order of the recent list. *)
Theorem recent_part_in_recency_order (recent : list RecentProject)
    (discovered : list Project.t) :
  NoDup (path <$> recent) → NoDup (Project.path <$> discovered) →
  sortedProjects recent discovered
  = filter (isRecent (path <$> recent)) (sortedProjects recent discovered)
    ++ filter (λ a, ¬ isRecent (path <$> recent) a)
              (sortedProjects recent discovered)
  ∧ Project.path
      <$> filter (isRecent (path <$> recent))
                 (sortedProjects recent discovered)
    = filter (λ p, p ∈ Project.path <$> discovered) (path <$> recent).
Proof.
  intros Hrnd Hdnd. unfold sortedProjects. set (rp := path <$> recent).
  set (rs := Array_sort (compareProjects rp) (filter (isRecent rp) discovered)).
  set (os := Array_sort (compareProjects rp)
               (filter (λ a, ¬ isRecent rp a) discovered)).
  assert (Hrs : Forall (isRecent rp) rs).
  { unfold rs. rewrite Array_sort_Permutation. apply Forall_forall.
    intros a Ha. by apply list_elem_of_filter in Ha as [Ha _]. }
  assert (Hos : Forall (λ a, ¬ isRecent rp a) os).
  { unfold os. rewrite Array_sort_Permutation. apply Forall_forall.
    intros a Ha. by apply list_elem_of_filter in Ha as [Ha _]. }
  rewrite (Array_sort_split rp discovered). fold rs os.
  assert (Hfr : filter (isRecent rp) (rs ++ os) = rs).
  { rewrite filter_app, (filter_all _ rs Hrs), filter_none, app_nil_r;
      [reflexivity|exact Hos]. }
  assert (Hfo : filter (λ a, ¬ isRecent rp a) (rs ++ os) = os).
  { rewrite filter_app, (filter_all _ os Hos), filter_none; [reflexivity|].
    eapply Forall_impl; [exact Hrs|]. intros a Ha Hn. by apply Hn. }
  rewrite Hfr, Hfo. split; [reflexivity|].
  set (R := λ p q : string, Array_indexOf rp p ≤ Array_indexOf rp q).
  assert (Htrans : Transitive R) by (intros p q r; unfold R; lia).
  apply (Sorted_unique_strong R).
  - intros p q Hp _ Hpq Hqp. unfold R in *.
    apply (Array_indexOf_inj rp); [|lia].
    apply list_elem_of_fmap in Hp as (a & -> & Ha).
    by eapply Forall_forall in Hrs.
  - apply StronglySorted_Sorted.
    eapply StronglySorted_fmap; [|apply recent_part_sorted].
    intros a b Hab. exact Hab.
  - apply StronglySorted_Sorted, StronglySorted_filter.
    by apply NoDup_sorted_by_index.
  - apply NoDup_Permutation.
    + unfold rs. rewrite Array_sort_Permutation.
      eapply sublist_NoDup; [exact Hdnd|].
      apply fmap_sublist, sublist_filter.
    + by apply NoDup_filter.
    + intros p. rewrite list_elem_of_filter, !list_elem_of_fmap.
      unfold rs. setoid_rewrite Array_sort_Permutation.
      setoid_rewrite list_elem_of_filter. unfold isRecent.
      split.
      * intros (a & -> & Ha & Hin). split; [by exists a|exact Ha].
      * intros [(a & -> & Hin) Hp]. by exists a.
Qed.

End QuickSwitchOrder.

(** ** The search command: filters, types, order by date *)

Lemma sort_insert_ext {A} (cmp cmp' : A → A → Z) (x : A) (l : list A) :
  (∀ y, y ∈ l → cmp x y = cmp' x y) →
  sort_insert cmp x l = sort_insert cmp' x l.
Proof.
  induction l as [|y l IH]; intros Hext; [reflexivity|]. simpl.
  rewrite (Hext y) by (apply elem_of_cons; by left).
  destruct (cmp' x y <=? 0); [reflexivity|]. f_equal.
  apply IH. intros z Hz. apply Hext, elem_of_cons. by right.
Qed.

(** Two comparators that agree on the elements of a list sort it alike. *)
Lemma Array_sort_ext {A} (cmp cmp' : A → A → Z) (l : list A) :
  (∀ x y, x ∈ l → y ∈ l → cmp x y = cmp' x y) →
  Array_sort cmp l = Array_sort cmp' l.
Proof.
  induction l as [|x l IH]; intros Hext; [reflexivity|]. simpl.
  rewrite IH.
  - apply sort_insert_ext. intros y Hy.
    rewrite Array_sort_Permutation in Hy.
    apply Hext; [apply elem_of_cons; by left|apply elem_of_cons; by right].
  - intros y z Hy Hz. apply Hext; apply elem_of_cons; by right.
Qed.

Lemma filter_ext_elem {A} (P Q : A → Prop) `{∀ x, Decision (P x)}
    `{∀ x, Decision (Q x)} (l : list A) :
  (∀ x, x ∈ l → P x ↔ Q x) → filter P l = filter Q l.
Proof.
  induction l as [|x l IH]; intros Hext; [reflexivity|].
  assert (Hx : P x ↔ Q x) by (apply Hext, elem_of_cons; by left).
  assert (IH' : filter P l = filter Q l).
  { apply IH. intros y Hy. apply Hext, elem_of_cons. by right. }
  destruct (decide (P x)) as [HP|HP].
  - rewrite !filter_cons_True by tauto. by rewrite IH'.
  - rewrite !filter_cons_False by tauto. exact IH'.
Qed.

Lemma sort_by_date_all_stamped (l : list ProjectWithStats.t) :
  Forall (λ p, is_Some (ProjectWithStats.lastModified p)) l →
  Array_sort compareByDate l ≡ₚ l
  ∧ StronglySorted newer_first (Array_sort compareByDate l)
  ∧ (∀ t, filter (λ p, ProjectWithStats.lastModified p = Some t)
                 (Array_sort compareByDate l)
          = filter (λ p, ProjectWithStats.lastModified p = Some t) l).
Proof.
  intros Hall.
  assert (Hsome : ∀ p, p ∈ l → is_Some (ProjectWithStats.lastModified p))
    by (by apply Forall_forall).
  assert (Hext : Array_sort compareByDate l = Array_sort compareByTime l).
  { apply Array_sort_ext. intros x y Hx Hy.
    destruct (Hsome x Hx) as [tx Htx]. destruct (Hsome y Hy) as [ty Hty].
    unfold compareByDate, compareByTime. by rewrite Htx, Hty. }
  assert (Hall' : Forall (λ p, is_Some (ProjectWithStats.lastModified p))
                         (Array_sort compareByDate l))
    by (by rewrite Array_sort_Permutation).
  split; [apply Array_sort_Permutation|]. split.
  - eapply (StronglySorted_on
              (λ p, is_Some (ProjectWithStats.lastModified p))
              (precedes compareByTime)); [|exact Hall'|].
    + intros a b [ta Ha] [tb Hb]. unfold precedes, compareByTime, newer_first.
      rewrite Ha, Hb. simpl. intros Hle. exists ta, tb. repeat split; lia.
    + rewrite Hext. apply Array_sort_sorted.
      * intros a b. unfold precedes, compareByTime. lia.
      * intros a b c. unfold precedes, compareByTime. lia.
  - intros t.
    set (w := ProjectWithStats.mk (Project.mk "" "" "" None) (Some t) None).
    rewrite (filter_ext_elem _ (λ p, compareByTime w p = 0)
               (Array_sort compareByDate l)).
    + rewrite (filter_ext_elem
                 (λ p, ProjectWithStats.lastModified p = Some t)
                 (λ p, compareByTime w p = 0) l).
      * rewrite Hext. apply Array_sort_stable.
        -- intros a b c. unfold precedes, compareByTime. lia.
        -- intros a b. unfold precedes, compareByTime. lia.
      * intros p Hp. destruct (Hsome p Hp) as [tp Htp].
        unfold compareByTime. rewrite Htp. simpl.
        split; [intros [= ->]; lia|intros Heq; f_equal; lia].
    + intros p Hp. rewrite Array_sort_Permutation in Hp.
      destruct (Hsome p Hp) as [tp Htp].
      unfold compareByTime. rewrite Htp. simpl.
      split; [intros [= ->]; lia|intros Heq; f_equal; lia].
Qed.

(** X21: when [statSync] succeeds on the path of every discovered
    project, sorting the projects with their stats by the comparator of
    the search command gives a permutation of them with the most recently
    modified first, and projects modified at the same time keep their
    discovered order. *)
Theorem search_sorted_by_date (statSync : string → option (Z * Z))
    (discovered : list Project.t) :
  (∀ p, p ∈ discovered → is_Some (statSync (Project.path p))) →
  Array_sort compareByDate (addStats statSync <$> discovered)
    ≡ₚ addStats statSync <$> discovered
  ∧ StronglySorted newer_first
      (Array_sort compareByDate (addStats statSync <$> discovered))
  ∧ (∀ t, filter (λ p, ProjectWithStats.lastModified p = Some t)
                 (Array_sort compareByDate (addStats statSync <$> discovered))
          = filter (λ p, ProjectWithStats.lastModified p = Some t)
                   (addStats statSync <$> discovered)).
Proof.
  intros Hstat. apply sort_by_date_all_stamped.
  apply Forall_forall. intros q Hq.
  apply list_elem_of_fmap in Hq as (p & -> & Hp).
  destruct (Hstat p Hp) as [[mtime sz] Hs].
  unfold addStats. rewrite Hs. by eexists.
Qed.

(** X22: the comparator of the search command is not a consistent
    comparator once a project has no modification time (its [statSync]
    failed): such a project ties with every other one, also with two
    projects that do not tie with each other, so where the engine places
    it, and the projects around it, is not determined by the
    comparator. *)
Theorem compareByDate_ties_not_transitive (a b u : ProjectWithStats.t)
    (ta tb : Z) :
  ProjectWithStats.lastModified a = Some ta →
  ProjectWithStats.lastModified b = Some tb →
  ProjectWithStats.lastModified u = None →
  ta ≠ tb →
  compareByDate a u = 0 ∧ compareByDate u b = 0 ∧ compareByDate a b ≠ 0.
Proof.
  intros Ha Hb Hu Hne. unfold compareByDate. rewrite Ha, Hb, Hu.
  repeat split. lia.
Qed.

Lemma filteredProjects_by_type (projects : list ProjectWithStats.t)
    (selectedType : string) (favorites : list string)
    (p : ProjectWithStats.t) :
  selectedType ≠ "all" → selectedType ≠ "favorites" →
  p ∈ filteredProjects projects selectedType favorites
  ↔ p ∈ projects
    ∧ formatProjectType (Project.marker (ProjectWithStats.project p))
      = JsString selectedType.
Proof.
  intros Hall Hfav. unfold filteredProjects.
  destruct (String.eqb_spec selectedType "all"); [done|].
  destruct (String.eqb_spec selectedType "favorites"); [done|].
  rewrite list_elem_of_filter. tauto.
Qed.

(** X24: [filteredProjects] always gives a sublist of the projects, in
    their order: all of them for [all]; for [favorites] those whose path
    is a favorite; for every other selection those whose type tag is the
    selected string.  A project whose marker names a member of
    [Object.prototype] is shown under no such selection. *)
Theorem filteredProjects_spec (projects : list ProjectWithStats.t)
    (selectedType : string) (favorites : list string) :
  filteredProjects projects selectedType favorites `sublist_of` projects
  ∧ filteredProjects projects "all" favorites = projects
  ∧ (∀ p, p ∈ filteredProjects projects "favorites" favorites
          ↔ p ∈ projects
            ∧ Project.path (ProjectWithStats.project p) ∈ favorites)
  ∧ (selectedType ≠ "all" → selectedType ≠ "favorites" →
     (∀ p, p ∈ filteredProjects projects selectedType favorites
           ↔ p ∈ projects
             ∧ formatProjectType
                 (Project.marker (ProjectWithStats.project p))
               = JsString selectedType)
     ∧ (∀ p, Project.marker (ProjectWithStats.project p) ∈ Object_prototype →
             p ∉ filteredProjects projects selectedType favorites)).
Proof.
  split.
  { unfold filteredProjects.
    destruct (String.eqb selectedType "all"); [reflexivity|].
    destruct (String.eqb selectedType "favorites"); apply sublist_filter. }
  split; [reflexivity|].
  split.
  { intros p. unfold filteredProjects. simpl.
    rewrite list_elem_of_filter. tauto. }
  intros Hall Hfav.
  split; [intros p; by apply filteredProjects_by_type|].
  intros p Hproto Hin.
  apply filteredProjects_by_type in Hin as [_ Htag]; [|done..].
  rewrite (formatProjectType_inherited _ Hproto) in Htag. discriminate.
Qed.

(** ** The type tags of the search command *)

Lemma foldl_Set_add {A B} `{EqDecision B} (f : A → B) (l : list A)
    (acc : list B) :
  NoDup acc →
  NoDup (foldl (λ types p, Set_add types (f p)) acc l)
  ∧ ∀ v, v ∈ foldl (λ types p, Set_add types (f p)) acc l
         ↔ v ∈ acc ∨ v ∈ f <$> l.
Proof.
  revert acc. induction l as [|p l IH]; intros acc Hnd.
  - split; [exact Hnd|]. intros v. cbn. rewrite elem_of_nil. tauto.
  - cbn [foldl]. unfold Set_add at 2 4.
    destruct (decide (f p ∈ acc)) as [Hin|Hnin].
    + destruct (IH acc Hnd) as [H1 H2]. split; [exact H1|].
      intros v. rewrite H2. cbn [fmap list_fmap]. rewrite elem_of_cons.
      naive_solver.
    + assert (Hnd' : NoDup (acc ++ [f p])).
      { apply NoDup_app. split; [exact Hnd|]. split; [|apply NoDup_singleton].
        intros x Hx Hx'. apply list_elem_of_singleton in Hx'. congruence. }
      destruct (IH _ Hnd') as [H1 H2]. split; [exact H1|].
      intros v. rewrite H2, elem_of_app, list_elem_of_singleton.
      cbn [fmap list_fmap]. rewrite elem_of_cons. naive_solver.
Qed.

Section ProjectTypesExtras.
Variable inherited_toString : string → string.

Lemma SortCompare_defined (x y : JsValue) :
  x ≠ JsUndefined → y ≠ JsUndefined →
  SortCompare inherited_toString x y
  = Z.sgn (code_unit_compare (ToString inherited_toString x)
                             (ToString inherited_toString y)).
Proof. by destruct x, y. Qed.

Lemma SortCompare_total (x y : JsValue) :
  precedes (SortCompare inherited_toString) x y
  ∨ precedes (SortCompare inherited_toString) y x.
Proof.
  unfold precedes.
  destruct x, y; simpl; try lia;
    match goal with
    | |- context [code_unit_compare ?a ?b] =>
        pose proof (code_unit_compare_antisym a b)
    end; lia.
Qed.

Lemma SortCompare_trans (x y z : JsValue) :
  precedes (SortCompare inherited_toString) x y →
  precedes (SortCompare inherited_toString) y z →
  precedes (SortCompare inherited_toString) x z.
Proof.
  unfold precedes.
  destruct x, y, z; simpl; try lia;
    match goal with
    | |- Z.sgn (code_unit_compare ?a ?b) ≤ 0 →
         Z.sgn (code_unit_compare ?b ?c) ≤ 0 → _ =>
        pose proof (code_unit_compare_trans a b c)
    end; lia.
Qed.

Lemma projectTypes_elem (projects : list ProjectWithStats.t) (v : JsValue) :
  v ∈ projectTypes inherited_toString projects
  ↔ ∃ p, p ∈ projects
         ∧ formatProjectType (Project.marker (ProjectWithStats.project p))
           = v.
Proof.
  unfold projectTypes.
  destruct (foldl_Set_add
              (λ p, formatProjectType
                      (Project.marker (ProjectWithStats.project p)))
              projects [] (NoDup_nil_2)) as [_ Hmem].
  rewrite Array_sort_Permutation, Hmem, list_elem_of_fmap, elem_of_nil.
  naive_solver.
Qed.

(** X25: the type tags offered by the search command are exactly the
    tags of the loaded projects, each one once, in ascending order of
    their strings by code units. *)
Theorem projectTypes_spec (projects : list ProjectWithStats.t) :
  NoDup (projectTypes inherited_toString projects)
  ∧ (∀ v, v ∈ projectTypes inherited_toString projects
          ↔ ∃ p, p ∈ projects
                 ∧ formatProjectType
                     (Project.marker (ProjectWithStats.project p)) = v)
  ∧ StronglySorted
      (λ x y, code_unit_compare (ToString inherited_toString x)
                                (ToString inherited_toString y) ≤ 0)
      (projectTypes inherited_toString projects).
Proof.
  pose proof (projectTypes_elem projects) as Hin.
  unfold projectTypes in *.
  destruct (foldl_Set_add
              (λ p, formatProjectType
                      (Project.marker (ProjectWithStats.project p)))
              projects [] (NoDup_nil_2)) as [Hnd _].
  split; [by rewrite Array_sort_Permutation|].
  split; [exact Hin|].
  eapply (StronglySorted_on (λ v, v ≠ JsUndefined)
            (precedes (SortCompare inherited_toString))).
  - intros x y Hx Hy. unfold precedes.
    rewrite SortCompare_defined by done. lia.
  - apply Forall_forall. intros v Hv. apply Hin in Hv as (p & _ & <-).
    apply formatProjectType_defined.
  - apply Array_sort_sorted; [apply SortCompare_total|apply SortCompare_trans].
Qed.

(** X26: for a selected string other than [all] and [favorites], the
    search command shows at least one project exactly when the string is
    one of the type tags it offers.  A type tag it offers that is no
    string, an inherited member of [Object.prototype], is the tag of a
    project that no such selection shows. *)
Theorem selection_shown_iff_offered (projects : list ProjectWithStats.t)
    (selectedType : string) (favorites : list string) :
  selectedType ≠ "all" → selectedType ≠ "favorites" →
  (filteredProjects projects selectedType favorites ≠ []
   ↔ JsString selectedType ∈ projectTypes inherited_toString projects)
  ∧ (∀ n, JsInherited n ∈ projectTypes inherited_toString projects →
       ∃ p, p ∈ projects
            ∧ formatProjectType (Project.marker (ProjectWithStats.project p))
              = JsInherited n
            ∧ p ∉ filteredProjects projects selectedType favorites).
Proof.
  intros Hall Hfav. split; [split|].
  - intros Hne.
    destruct (filteredProjects projects selectedType favorites)
      as [|p rest] eqn:Hf; [done|].
    assert (Hp : p ∈ filteredProjects projects selectedType favorites)
      by (rewrite Hf; apply elem_of_cons; by left).
    apply filteredProjects_by_type in Hp as [Hp Htag]; [|done..].
    apply projectTypes_elem. by exists p.
  - intros Hin Hempty.
    apply projectTypes_elem in Hin as (p & Hp & Htag).
    assert (Hpin : p ∈ filteredProjects projects selectedType favorites)
      by (by apply filteredProjects_by_type).
    rewrite Hempty in Hpin. by apply elem_of_nil in Hpin.
  - intros n Hin.
    apply projectTypes_elem in Hin as (p & Hp & Htag).
    exists p. split; [exact Hp|]. split; [exact Htag|].
    intros Hpin.
    apply filteredProjects_by_type in Hpin as [_ Htag']; [|done..].
    congruence.
Qed.

End ProjectTypesExtras.

(** ** Finding the configured applications *)

Lemma String_includes_refl (s : string) : String_includes s s = true.
Proof.
  unfold String_includes. apply bool_decide_eq_true_2.
  rewrite (String_indexOf_prefix s s) by apply prefix_refl. by eexists.
Qed.

Lemma Array_find_Some {A} (f : A → bool) (l : list A) (x : A) :
  Array_find f l = Some x ↔
  ∃ i, l !! i = Some x ∧ f x = true
       ∧ ∀ j y, l !! j = Some y → (j < i)%nat → f y = false.
Proof.
  unfold Array_find. split.
  - intros Hf. destruct (list_find _ l) as [[i y]|] eqn:Hfind; [|discriminate].
    simpl in Hf. injection Hf as ->.
    apply list_find_Some in Hfind as (Hi & Hx & Hbefore).
    exists i. split; [exact Hi|]. split; [exact Hx|].
    intros j y Hj Hlt. specialize (Hbefore j y Hj Hlt).
    by destruct (f y).
  - intros (i & Hi & Hx & Hbefore).
    assert (Hfind : list_find (λ x, f x = true) l = Some (i, x)).
    { apply list_find_Some. split; [exact Hi|]. split; [exact Hx|].
      intros j y Hj Hlt. rewrite (Hbefore j y Hj Hlt). discriminate. }
    by rewrite Hfind.
Qed.

Lemma Array_find_None {A} (f : A → bool) (l : list A) :
  Array_find f l = None ↔ ∀ x, x ∈ l → f x = false.
Proof.
  unfold Array_find. split.
  - intros Hf x Hx.
    destruct (list_find _ l) as [[i y]|] eqn:Hfind; [discriminate|].
    apply list_find_None in Hfind.
    eapply Forall_forall in Hfind; [|exact Hx]. by destruct (f x).
  - intros Hall.
    assert (Hfind : list_find (λ x, f x = true) l = None).
    { apply list_find_None, Forall_forall. intros x Hx.
      rewrite (Hall x Hx). discriminate. }
    by rewrite Hfind.
Qed.

Section FindAppsExtras.
Variable String_toLowerCase : string → string.

Lemma matchesName_contains (wanted : string) (app : Application.t) :
  matchesName String_toLowerCase wanted app
  = name_contains String_toLowerCase wanted app.
Proof.
  unfold matchesName, name_contains.
  destruct (String.eqb_spec
              (String_toLowerCase (Application.name app))
              (String_toLowerCase wanted)) as [->|_]; [|reflexivity].
  by rewrite String_includes_refl.
Qed.

(** X27: the application found for a preference is the first installed
    application whose lower-cased name contains the lower-cased wanted
    name, where the wanted name is the preference, or the fallback when
    the preference is empty; the test for equal names changes nothing, so
    an application with exactly the wanted name is passed over when an
    earlier one merely contains it.  No application is found exactly when
    none contains the wanted name. *)
Theorem findApp_first_containing (preference fallback : string)
    (apps : list Application.t) :
  let wanted := if String.eqb preference "" then fallback else preference in
  (∀ app, findApp String_toLowerCase preference fallback apps = Some app ↔
          ∃ i, apps !! i = Some app ∧ name_contains String_toLowerCase wanted app = true
               ∧ ∀ j other, apps !! j = Some other → (j < i)%nat →
                            name_contains String_toLowerCase wanted other = false)
  ∧ (findApp String_toLowerCase preference fallback apps = None ↔
     ∀ app, app ∈ apps → name_contains String_toLowerCase wanted app = false).
Proof.
  intros wanted. unfold findApp. fold wanted. split.
  - intros app. rewrite Array_find_Some.
    setoid_rewrite matchesName_contains. reflexivity.
  - rewrite Array_find_None. setoid_rewrite matchesName_contains.
    reflexivity.
Qed.

End FindAppsExtras.

(** ** The order of the actions *)

(** X28: whatever the preference holds, the panel lists the four actions,
    each once; the first is the one the preference names (showing in the
    file browser for [finder] and for any value that is none of the four),
    and the three others follow in the order file browser, editor,
    terminal, copy. *)
Theorem orderedActions_spec (defaultAction : string) :
  orderedActions defaultAction
    ≡ₚ [openInFinder; openInEditor; openInTerminal; copyPath]
  ∧ orderedActions defaultAction
    = preferredAction defaultAction
      :: filter (λ a, a ≠ preferredAction defaultAction)
                [openInFinder; openInEditor; openInTerminal; copyPath].
Proof.
  unfold orderedActions, preferredAction.
  destruct (String.eqb_spec defaultAction "finder") as [->|_].
  { split; reflexivity. }
  destruct (String.eqb defaultAction "editor").
  { split; [apply Permutation_swap|reflexivity]. }
  destruct (String.eqb defaultAction "terminal").
  { split; [|reflexivity].
    apply (Permutation_cons_app [openInFinder; openInEditor] [copyPath]).
    reflexivity. }
  destruct (String.eqb defaultAction "copy").
  { split; [|reflexivity].
    apply (Permutation_cons_app
             [openInFinder; openInEditor; openInTerminal] []).
    reflexivity. }
  split; reflexivity.
Qed.

(** ** Reading the output of [pj] *)

Section ParseOutputExtras.
Variable String_trim : string → string.
Variable JSON_parse_output : string → option PJOutput.t.

(** X29: [parseOutput] always resolves, shows no toast and leaves the
    storage alone.  For an output that is empty, or empty once trimmed,
    it answers the empty project list and has no effect; for an output
    the parser rejects it answers the empty list and logs once on the
    console; in every other case it answers what the parser gives and has
    no effect. *)
Theorem parseOutput_outcome (stdout : string) (w : World) :
  (∃ out, (parseOutput String_trim JSON_parse_output stdout w).1
          = Resolved out)
  ∧ toasts (parseOutput String_trim JSON_parse_output stdout w).2 = toasts w
  ∧ localStorage (parseOutput String_trim JSON_parse_output stdout w).2
    = localStorage w
  ∧ (stdout = "" ∨ String_trim stdout = "" →
     parseOutput String_trim JSON_parse_output stdout w
     = (Resolved (PJOutput.mk (Some [])), w))
  ∧ (stdout ≠ "" → String_trim stdout ≠ "" →
     (JSON_parse_output stdout = None →
      (parseOutput String_trim JSON_parse_output stdout w).1
      = Resolved (PJOutput.mk (Some []))
      ∧ console (parseOutput String_trim JSON_parse_output stdout w).2
        = console w ++ [("Failed to parse pj output:", SyntaxError)])
     ∧ (∀ parsed, JSON_parse_output stdout = Some parsed →
          parseOutput String_trim JSON_parse_output stdout w
          = (Resolved parsed, w))).
Proof.
  unfold parseOutput.
  destruct (String.eqb_spec stdout "") as [->|Hne]; simpl.
  { repeat split; try done. by eexists. }
  destruct (String.eqb_spec (String_trim stdout) "") as [Ht|Hnt]; simpl.
  { repeat split; try done. by eexists. }
  unfold try_catch.
  destruct (JSON_parse_output stdout) as [parsed|]; cbn.
  - split; [by eexists|]. repeat split; try done.
    + intros [?|?]; done.
    + by intros parsed' [= <-].
  - split; [by eexists|]. repeat split; try done.
    intros [?|?]; done.
Qed.

End ParseOutputExtras.

(** ** The rank shown for a recent project *)

Lemma append_inj_l (a s t : string) : a +:+ s = a +:+ t → s = t.
Proof.
  induction a as [|c a IH]; [done|].
  rewrite !append_cons. intros [= Heq]. by apply IH.
Qed.

(** X30: a project is tagged exactly when its path is in the recent
    list; the tag of the project whose path stands at position [i] of a
    recent list without repetition reads [Recent #] followed by [i + 1];
    and two projects with the same tag have the same path. *)
Theorem recentTag_rank (recentPaths : list string) (a : Project.t) :
  (recentTag recentPaths a = None ↔ Project.path a ∉ recentPaths)
  ∧ (∀ i : nat, NoDup recentPaths →
       recentPaths !! i = Some (Project.path a) →
       recentTag recentPaths a
       = Some ("Recent #" +:+ pretty (Z.of_nat i + 1)))
  ∧ (∀ b, Project.path a ∈ recentPaths →
          recentTag recentPaths a = recentTag recentPaths b →
          Project.path a = Project.path b).
Proof.
  unfold recentTag. split; [|split].
  - destruct (decide (Project.path a ∈ recentPaths)) as [Hin|Hnin].
    + rewrite bool_decide_eq_true_2 by done. split; [discriminate|done].
    + by rewrite bool_decide_eq_false_2.
  - intros i Hnd Hi.
    rewrite bool_decide_eq_true_2 by (by eapply list_elem_of_lookup_2).
    unfold recentIndex.
    by rewrite (Array_indexOf_NoDup_lookup _ _ i Hnd Hi).
  - intros b Ha. rewrite (bool_decide_eq_true_2 _ Ha).
    destruct (decide (Project.path b ∈ recentPaths)) as [Hb|Hb].
    + rewrite (bool_decide_eq_true_2 _ Hb). intros [= Heq].
      apply append_inj_l, (inj pretty) in Heq.
      apply (Array_indexOf_inj recentPaths); [exact Ha|].
      unfold recentIndex in Heq. lia.
    + by rewrite bool_decide_eq_false_2.
Qed.

(** ** Further runs on concrete data *)

(** Project C, the least recent of the stored list, opened, then the
    list loaded. *)
Lemma opened_project_listed_first_witness :
  setItem_fault recent_world = None
  ∧ recent_stored recent_world = true
  ∧ project_C ∈ three_projects
  ∧ NoDup (Project.path <$> three_projects)
  ∧ head (QuickSwitch.projects
            (loadProjects (Resolved tt) (Resolved three_projects)
               (QuickSwitch.mk [] true [])
               (openProject (Resolved tt) project_C recent_world).2).1.2)
    = Some project_C.
Proof.
  assert (Hok : setItem_fault recent_world = None) by reflexivity.
  assert (Hin : project_C ∈ three_projects)
    by (apply elem_of_cons; right; apply elem_of_cons; right;
        apply elem_of_cons; by left).
  assert (Hnd : NoDup (Project.path <$> three_projects))
    by (apply (bool_decide_unpack _); vm_compute; exact I).
  assert (Hst : recent_stored recent_world = true)
    by (vm_compute; reflexivity).
  split; [exact Hok|]. split; [exact Hst|].
  split; [exact Hin|]. split; [exact Hnd|].
  exact (opened_project_listed_first project_C three_projects
           (QuickSwitch.mk [] true []) recent_world Hok Hst Hin Hnd).
Defined.

(** A recent list with a path that is not discovered. *)
Lemma recent_part_in_recency_order_witness :
  NoDup (path <$> recent_BXA)
  ∧ NoDup (Project.path <$> three_projects)
  ∧ Project.path
      <$> filter (isRecent ["/p/B"; "/p/X"; "/p/A"])
            (sortedProjects recent_BXA three_projects)
    = ["/p/B"; "/p/A"].
Proof.
  assert (Hr : NoDup (path <$> recent_BXA))
    by (apply (bool_decide_unpack _); vm_compute; exact I).
  assert (Hd : NoDup (Project.path <$> three_projects))
    by (apply (bool_decide_unpack _); vm_compute; exact I).
  split; [exact Hr|]. split; [exact Hd|].
  destruct (recent_part_in_recency_order _ three_projects Hr Hd)
    as [_ Hpaths].
  etrans; [exact Hpaths|]. vm_compute. reflexivity.
Defined.

(** The three projects with their stats, B modified last. *)
Lemma search_sorted_by_date_witness :
  (∀ p, p ∈ three_projects → is_Some (three_stats (Project.path p)))
  ∧ (Project.path ∘ ProjectWithStats.project)
      <$> Array_sort compareByDate (addStats three_stats <$> three_projects)
    = ["/p/B"; "/p/C"; "/p/A"]
  ∧ StronglySorted newer_first
      (Array_sort compareByDate (addStats three_stats <$> three_projects)).
Proof.
  assert (Hstat : ∀ p, p ∈ three_projects →
                       is_Some (three_stats (Project.path p))).
  { intros p Hp. unfold three_projects in Hp.
    repeat (apply elem_of_cons in Hp as [->|Hp]; [by eexists|]).
    by apply elem_of_nil in Hp. }
  split; [exact Hstat|]. split; [vm_compute; reflexivity|].
  exact (proj1 (proj2 (search_sorted_by_date three_stats three_projects Hstat))).
Defined.

(** A project whose [statSync] failed, between two that differ. *)
Lemma compareByDate_ties_not_transitive_witness :
  compareByDate (addStats three_stats project_A)
                (ProjectWithStats.mk project_C None None) = 0
  ∧ compareByDate (ProjectWithStats.mk project_C None None)
                  (addStats three_stats project_B) = 0
  ∧ compareByDate (addStats three_stats project_A)
                  (addStats three_stats project_B) ≠ 0.
Proof.
  apply (compareByDate_ties_not_transitive
           (addStats three_stats project_A) (addStats three_stats project_B)
           (ProjectWithStats.mk project_C None None) 100 300);
    [reflexivity|reflexivity|reflexivity|lia].
Defined.

(** The selection [git] among the three projects and a fourth one whose
    marker names a member of [Object.prototype]. *)
Lemma selection_shown_iff_offered_witness :
  "git" ≠ "all" ∧ "git" ≠ "favorites"
  ∧ JsString "git"
      ∈ projectTypes (λ _, "function")
          (addStats three_stats <$> (three_projects ++ [project_D]))
  ∧ JsInherited "constructor"
      ∈ projectTypes (λ _, "function")
          (addStats three_stats <$> (three_projects ++ [project_D]))
  ∧ filteredProjects (addStats three_stats <$> (three_projects ++ [project_D]))
      "git" [] ≠ []
  ∧ filteredProjects (addStats three_stats <$> (three_projects ++ [project_D]))
      "function" [] = [].
Proof.
  assert (Hall : "git" ≠ "all") by discriminate.
  assert (Hfav : "git" ≠ "favorites") by discriminate.
  assert (Hin : JsString "git"
    ∈ projectTypes (λ _, "function")
        (addStats three_stats <$> (three_projects ++ [project_D])))
    by (apply (bool_decide_unpack _); vm_compute; exact I).
  assert (Hinh : JsInherited "constructor"
    ∈ projectTypes (λ _, "function")
        (addStats three_stats <$> (three_projects ++ [project_D])))
    by (apply (bool_decide_unpack _); vm_compute; exact I).
  split; [exact Hall|]. split; [exact Hfav|].
  split; [exact Hin|]. split; [exact Hinh|].
  split; [|vm_compute; reflexivity].
  exact (proj2 (proj1 (selection_shown_iff_offered (λ _, "function")
                         _ "git" [] Hall Hfav)) Hin).
Defined.

(** The type tags of the three projects, and the applications found for
    a preference, for names that are in lower case already. *)
Example search_view_examples :
  projectTypes (λ _, "function") (addStats three_stats <$> three_projects)
  = [JsString "git"; JsString "go"; JsString "make"]
  ∧ findEditor (λ s, s) "code"
      [Application.mk "xcode" "/Applications/Xcode.app" None;
       Application.mk "code" "/Applications/Code.app" None]
    = Some (Application.mk "xcode" "/Applications/Xcode.app" None)
  ∧ findTerminal (λ s, s) ""
      [Application.mk "iterm" "/Applications/iTerm.app" None]
    = None.
Proof. vm_compute. repeat split; reflexivity. Qed.

(** The stored favorite [a] removed: one success toast. *)
Lemma toggleFavorite_one_toast_witness :
  favorites_stored favorites_world = true
  ∧ setItem_fault favorites_world = None
  ∧ ∃ t, toasts (toggleFavorite "a" favorites_world).2 = [t]
         ∧ style t = Success ∧ title t = "Removed from Favorites".
Proof.
  assert (Hst : favorites_stored favorites_world = true)
    by (vm_compute; reflexivity).
  assert (Hok : setItem_fault favorites_world = None) by reflexivity.
  split; [exact Hst|]. split; [exact Hok|].
  destruct (toggleFavorite_one_toast "a" favorites_world)
    as (answer & t & Hanswer & Htoasts & _ & Hkind).
  destruct (Hkind Hst) as [Hsuccess _].
  destruct (Hsuccess Hok) as [Hstyle Htitle].
  assert (Hfalse : answer = false).
  { assert (Hrun : (toggleFavorite "a" favorites_world).1 = Resolved false)
      by (vm_compute; reflexivity).
    rewrite Hrun in Hanswer. by injection Hanswer as <-. }
  rewrite Hfalse in Htitle.
  exists t. split; [exact Htoasts|]. split; [exact Hstyle|exact Htitle].
Defined.

(** Project A opened again on the stored recent list: nothing logged. *)
Lemma addToRecentProjects_frame_witness :
  setItem_fault recent_world = None
  ∧ recent_stored recent_world = true
  ∧ console (addToRecentProjects "/p/A" recent_world).2 = [].
Proof.
  assert (Hok : setItem_fault recent_world = None) by reflexivity.
  assert (Hst : recent_stored recent_world = true)
    by (vm_compute; reflexivity).
  split; [exact Hok|]. split; [exact Hst|].
  destruct (addToRecentProjects_frame "/p/A" recent_world)
    as (_ & _ & _ & _ & _ & Hconsole).
  exact (Hconsole Hok Hst).
Defined.

(** The three projects loaded over the stored recent list. *)
Lemma loadProjects_outcome_witness :
  recent_stored recent_world = true
  ∧ Project.path
      <$> QuickSwitch.projects
            (loadProjects (Resolved tt) (Resolved three_projects)
               (QuickSwitch.mk [] true []) recent_world).1.2
    = ["/p/B"; "/p/A"; "/p/C"]
  ∧ toasts (loadProjects (Resolved tt) (Resolved three_projects)
              (QuickSwitch.mk [] true []) recent_world).2 = [].
Proof.
  assert (Hst : recent_stored recent_world = true)
    by (vm_compute; reflexivity).
  split; [exact Hst|].
  destruct (loadProjects_outcome (Resolved tt) (Resolved three_projects)
              (QuickSwitch.mk [] true []) recent_world)
    as (_ & _ & _ & _ & Hfound).
  destruct (Hfound eq_refl Hst) as [Hlist _].
  destruct (Hlist three_projects eq_refl) as (Hprojects & _ & Htoasts).
  split; [|exact Htoasts].
  rewrite Hprojects. vm_compute. reflexivity.
Defined.
